(** * Block-coordinate descent for the augmented Lagrangian of a
      block-angular 0-1 program ([functional_bcd.py])

    A shallow embedding of [BCDParams] (the tuning/state store) and of
    [optimize] (the outer continuation loop, the inner coordinate sweep
    and the block best-response step), followed by the properties of the
    design document that can be settled on it.

    Numbers.  Python integers are [Z]; loop ranges are [nat] after
    [Z.to_nat] ([range n] is empty for [n <= 0]).  The floats of the
    state store, which are only compared, halved and divided once, are
    exact real numbers ([R]).  The floats of [optimize] are IEEE binary64
    values (the primitive type [float]) with their rounding, their
    infinities and NaN, because the penalty weight doubles at every outer
    iteration and leaves the finite range.

    Containers.  Python lists and the dictionaries keyed by the block
    index [0 .. nblock-1] are lists read with [!!] and written with
    [<[ i := x ]>]; [os.environ] is a finite map from strings to strings.

    Failure.  A Python exception (an index out of range, [min] of an
    empty list, a local variable read before assignment, arrays whose
    shapes do not fit, a value that does not convert to an integer) is
    [None]. *)

From Stdlib Require Import Reals Lra ZArith Lia Floats.
From stdpp Require Import base option list strings gmap.

Local Open Scope R_scope.

(** Decimal constants stay as written under [cbn] and [simpl]. *)
#[local] Arguments Z.pow_pos _ _ : simpl never.
#[local] Arguments IZR _ : simpl never.
#[local] Arguments Q2R _ : simpl never.

(** ** The tuning / state store *)

Record BCDParams := mkBCDParams {
  kappa : R;
  alpha : R;
  beta : Z;
  gamma : R;
  changed : Z;
  num_stuck : Z;
  eps_num_stuck : Z;
  iter : Z;
  lb : R;
  lb_arr : list R;
  ub_arr : list R;
  gap : R;
  dual_method : string;
  primal_heuristic_method : option string;
  feasible_provider : string;
  max_number : Z;
  norms : list R * list R * list R;
  multipliers : list R * list R * list R;
  itermax : Z;
  linmax : Z
}.

(** One setter per attribute that some method assigns: [self.f = v]. *)

Definition set_kappa (v : R) (s : BCDParams) : BCDParams :=
  mkBCDParams v (alpha s) (beta s) (gamma s) (changed s) (num_stuck s)
    (eps_num_stuck s) (iter s) (lb s) (lb_arr s) (ub_arr s) (gap s)
    (dual_method s) (primal_heuristic_method s) (feasible_provider s)
    (max_number s) (norms s) (multipliers s) (itermax s) (linmax s).

Definition set_changed (v : Z) (s : BCDParams) : BCDParams :=
  mkBCDParams (kappa s) (alpha s) (beta s) (gamma s) v (num_stuck s)
    (eps_num_stuck s) (iter s) (lb s) (lb_arr s) (ub_arr s) (gap s)
    (dual_method s) (primal_heuristic_method s) (feasible_provider s)
    (max_number s) (norms s) (multipliers s) (itermax s) (linmax s).

Definition set_num_stuck (v : Z) (s : BCDParams) : BCDParams :=
  mkBCDParams (kappa s) (alpha s) (beta s) (gamma s) (changed s) v
    (eps_num_stuck s) (iter s) (lb s) (lb_arr s) (ub_arr s) (gap s)
    (dual_method s) (primal_heuristic_method s) (feasible_provider s)
    (max_number s) (norms s) (multipliers s) (itermax s) (linmax s).

Definition set_eps_num_stuck (v : Z) (s : BCDParams) : BCDParams :=
  mkBCDParams (kappa s) (alpha s) (beta s) (gamma s) (changed s) (num_stuck s)
    v (iter s) (lb s) (lb_arr s) (ub_arr s) (gap s)
    (dual_method s) (primal_heuristic_method s) (feasible_provider s)
    (max_number s) (norms s) (multipliers s) (itermax s) (linmax s).

Definition set_iter (v : Z) (s : BCDParams) : BCDParams :=
  mkBCDParams (kappa s) (alpha s) (beta s) (gamma s) (changed s) (num_stuck s)
    (eps_num_stuck s) v (lb s) (lb_arr s) (ub_arr s) (gap s)
    (dual_method s) (primal_heuristic_method s) (feasible_provider s)
    (max_number s) (norms s) (multipliers s) (itermax s) (linmax s).

Definition set_lb (v : R) (s : BCDParams) : BCDParams :=
  mkBCDParams (kappa s) (alpha s) (beta s) (gamma s) (changed s) (num_stuck s)
    (eps_num_stuck s) (iter s) v (lb_arr s) (ub_arr s) (gap s)
    (dual_method s) (primal_heuristic_method s) (feasible_provider s)
    (max_number s) (norms s) (multipliers s) (itermax s) (linmax s).

Definition set_lb_arr (v : list R) (s : BCDParams) : BCDParams :=
  mkBCDParams (kappa s) (alpha s) (beta s) (gamma s) (changed s) (num_stuck s)
    (eps_num_stuck s) (iter s) (lb s) v (ub_arr s) (gap s)
    (dual_method s) (primal_heuristic_method s) (feasible_provider s)
    (max_number s) (norms s) (multipliers s) (itermax s) (linmax s).

Definition set_ub_arr (v : list R) (s : BCDParams) : BCDParams :=
  mkBCDParams (kappa s) (alpha s) (beta s) (gamma s) (changed s) (num_stuck s)
    (eps_num_stuck s) (iter s) (lb s) (lb_arr s) v (gap s)
    (dual_method s) (primal_heuristic_method s) (feasible_provider s)
    (max_number s) (norms s) (multipliers s) (itermax s) (linmax s).

Definition set_gap (v : R) (s : BCDParams) : BCDParams :=
  mkBCDParams (kappa s) (alpha s) (beta s) (gamma s) (changed s) (num_stuck s)
    (eps_num_stuck s) (iter s) (lb s) (lb_arr s) (ub_arr s) v
    (dual_method s) (primal_heuristic_method s) (feasible_provider s)
    (max_number s) (norms s) (multipliers s) (itermax s) (linmax s).

Definition set_dual_method (v : string) (s : BCDParams) : BCDParams :=
  mkBCDParams (kappa s) (alpha s) (beta s) (gamma s) (changed s) (num_stuck s)
    (eps_num_stuck s) (iter s) (lb s) (lb_arr s) (ub_arr s) (gap s)
    v (primal_heuristic_method s) (feasible_provider s)
    (max_number s) (norms s) (multipliers s) (itermax s) (linmax s).

Definition set_primal_heuristic_method (v : option string) (s : BCDParams)
  : BCDParams :=
  mkBCDParams (kappa s) (alpha s) (beta s) (gamma s) (changed s) (num_stuck s)
    (eps_num_stuck s) (iter s) (lb s) (lb_arr s) (ub_arr s) (gap s)
    (dual_method s) v (feasible_provider s)
    (max_number s) (norms s) (multipliers s) (itermax s) (linmax s).

Definition set_feasible_provider (v : string) (s : BCDParams) : BCDParams :=
  mkBCDParams (kappa s) (alpha s) (beta s) (gamma s) (changed s) (num_stuck s)
    (eps_num_stuck s) (iter s) (lb s) (lb_arr s) (ub_arr s) (gap s)
    (dual_method s) (primal_heuristic_method s) v
    (max_number s) (norms s) (multipliers s) (itermax s) (linmax s).

Definition set_max_number (v : Z) (s : BCDParams) : BCDParams :=
  mkBCDParams (kappa s) (alpha s) (beta s) (gamma s) (changed s) (num_stuck s)
    (eps_num_stuck s) (iter s) (lb s) (lb_arr s) (ub_arr s) (gap s)
    (dual_method s) (primal_heuristic_method s) (feasible_provider s)
    v (norms s) (multipliers s) (itermax s) (linmax s).

Definition set_norms (v : list R * list R * list R) (s : BCDParams)
  : BCDParams :=
  mkBCDParams (kappa s) (alpha s) (beta s) (gamma s) (changed s) (num_stuck s)
    (eps_num_stuck s) (iter s) (lb s) (lb_arr s) (ub_arr s) (gap s)
    (dual_method s) (primal_heuristic_method s) (feasible_provider s)
    (max_number s) v (multipliers s) (itermax s) (linmax s).

Definition set_multipliers (v : list R * list R * list R) (s : BCDParams)
  : BCDParams :=
  mkBCDParams (kappa s) (alpha s) (beta s) (gamma s) (changed s) (num_stuck s)
    (eps_num_stuck s) (iter s) (lb s) (lb_arr s) (ub_arr s) (gap s)
    (dual_method s) (primal_heuristic_method s) (feasible_provider s)
    (max_number s) (norms s) v (itermax s) (linmax s).

(** [os.environ], read by [parse_environ]. *)
Abbreviation environ := (gmap string string).

(** [parse_environ]: [os.environ.get('primal', None)] and
    [os.environ.get('dual', 'pdhg_alm')]. *)
Definition parse_environ (env : environ) (s : BCDParams) : BCDParams :=
  let s := set_primal_heuristic_method (env !! "primal"%string) s in
  set_dual_method (default "pdhg_alm"%string (env !! "dual"%string)) s.

(** [BCDParams.__init__]. *)
Definition init (env : environ) : BCDParams :=
  parse_environ env
    {| kappa := 0.2; alpha := 1; beta := 1; gamma := 0.1;
       changed := 0; num_stuck := 0; eps_num_stuck := 3; iter := 0;
       lb := 1e-6; lb_arr := []; ub_arr := []; gap := 1;
       dual_method := "pdhg"; primal_heuristic_method := Some "jsp"%string;
       feasible_provider := "jsp"; max_number := 1;
       norms := ([], [], []); multipliers := ([], [], []);
       itermax := 10000; linmax := 10 |}.

(** [update_bound]: the comparison is [lb >= self.lb]; the stagnation
    test reads the counter the branch has just written. *)
Definition update_bound (lb0 : R) (s : BCDParams) : BCDParams :=
  let s :=
    if Rge_dec lb0 (lb s)
    then set_num_stuck 0 (set_changed 1 (set_lb lb0 s))
    else set_num_stuck (num_stuck s + 1) (set_changed 0 s) in
  let s :=
    if Z_ge_dec (num_stuck s) (eps_num_stuck s)
    then set_num_stuck 0 (set_kappa (kappa s * 0.5) s)
    else s in
  set_lb_arr (lb_arr s ++ [lb0]) s.

(** [update_incumbent]. *)
Definition update_incumbent (ub : R) (s : BCDParams) : BCDParams :=
  set_ub_arr (ub_arr s ++ [ub]) s.

(** Python's [min] and [max] over a list: the first element is kept until
    a strictly smaller (larger) one is met; an empty list raises
    [ValueError]. *)
Definition py_min (l : list R) : option R :=
  match l with
  | [] => None
  | x :: r => Some (foldl (fun cur y => if Rlt_dec y cur then y else cur) x r)
  end.

Definition py_max (l : list R) : option R :=
  match l with
  | [] => None
  | x :: r => Some (foldl (fun cur y => if Rgt_dec y cur then y else cur) x r)
  end.

(** [update_gap]. *)
Definition update_gap (s : BCDParams) : option BCDParams :=
  _best_ub ← py_min (ub_arr s);
  _best_lb ← py_max (lb_arr s);
  Some (set_gap ((_best_ub - _best_lb) / (Rabs _best_lb + 1e-3)) s).

(** [reset]. *)
Definition reset (env : environ) (s : BCDParams) : BCDParams :=
  let s := set_num_stuck 0 s in
  let s := set_eps_num_stuck 3 s in
  let s := set_iter 0 s in
  let s := set_lb 1e-6 s in
  let s := set_lb_arr [] s in
  let s := set_ub_arr [] s in
  let s := set_gap 1 s in
  let s := set_dual_method "pdhg" s in
  let s := set_primal_heuristic_method (Some "jsp"%string) s in
  let s := set_feasible_provider "jsp" s in
  let s := set_max_number 1 s in
  let s := set_norms ([], [], []) s in
  let s := set_multipliers ([], [], []) s in
  parse_environ env s.

(** The literals of the source that are no binary64 values are read
    to the nearest one, as Python reads them. *)
#[local] Set Warnings "-inexact-float".

(** ** Arrays of binary64 numbers, as far as [optimize] uses them

    The numbers of [optimize] are IEEE binary64 values ([float]); the
    arrays are dense and two-dimensional.  A column of shape [(k, 1)]
    and a row of shape [(1, k)] are lists of [k] numbers.  Where numpy
    adds the products of a matrix product it is free to choose the
    order; here they are added from left to right. *)

(** A column or a row. *)
Abbreviation vec := (list float).

(** A matrix: its [shape] attribute and its rows. *)
Record matrix := mkmatrix { shape : nat * nat; rows : list vec }.

Definition ones (n : nat) : vec := replicate n 1%float.
Definition zeros (n : nat) : vec := replicate n 0%float.

(** An elementwise operation on two columns, with numpy's broadcasting:
    the lengths agree, or one of them is 1; otherwise [ValueError]. *)
Definition broadcast (f : float -> float -> float) (u v : vec) : option vec :=
  if decide (length u = length v) then Some (zip_with f u v)
  else match u, v with
       | [a], _ => Some (map (f a) v)
       | _, [b] => Some (map (fun x => f x b) u)
       | _, _ => None
       end.

Definition vadd : vec -> vec -> option vec := broadcast PrimFloat.add.
Definition vsub : vec -> vec -> option vec := broadcast PrimFloat.sub.

(** The sum of the products of one row with one column. *)
Definition fsum (l : list float) : float :=
  match l with
  | [] => 0%float
  | p :: ps => foldl PrimFloat.add p ps
  end.

Definition inner (u v : vec) : float := fsum (zip_with PrimFloat.mul u v).

(** [(u @ v).trace()] for a row [u] and a column [v]: the inner
    dimensions must agree. *)
Definition dot (u v : vec) : option float :=
  if decide (length u = length v) then Some (inner u v) else None.

(** [M @ x] for a column [x]. *)
Definition mat_vec (M : matrix) (x : vec) : option vec :=
  if decide (snd (shape M) = length x)
  then Some (map (fun row => inner row x) (rows M))
  else None.

(** [M.T]. *)
Definition transpose (M : matrix) : matrix :=
  {| shape := (snd (shape M), fst (shape M));
     rows := map (fun j => map (fun row => default 0%float (row !! j))
                             (rows M))
                 (seq 0 (snd (shape M))) |}.

(** [a * M]. *)
Definition mat_scale (a : float) (M : matrix) : matrix :=
  {| shape := shape M; rows := map (map (PrimFloat.mul a)) (rows M) |}.

(** [np.linalg.norm]: the square root of the inner product of the
    flattened array with itself. *)
Definition norm (v : vec) : float := PrimFloat.sqrt (inner v v).

(** Python's [max(x, 0)]: 0 when [0 > x], and [x] otherwise (so a NaN
    is returned as it is). *)
Definition py_max0 (x : float) : float :=
  if (x <? 0)%float then 0%float else x.

(** The conversion of a Python float to a 64-bit integer: truncation
    towards zero; NaN, the infinities and the values outside
    [-2^63, 2^63) raise. *)
Definition to_int64 (y : float) : option Z :=
  match Prim2SF y with
  | S754_zero _ => Some 0%Z
  | S754_finite s m e =>
      let a := match e with
               | Zneg k => Z.shiftr (Zpos m) (Zpos k)
               | _ => Z.shiftl (Zpos m) e
               end in
      let z := if s then Z.opp a else a in
      if decide (- 2 ^ 63 <= z < 2 ^ 63)%Z then Some z else None
  | _ => None
  end.

(** The conversion of a non-negative 64-bit integer back to binary64
    (to the nearest value) when an integer array meets a float. *)
Definition of_int64 (z : Z) : float := PrimFloat.of_uint63 (Uint63.of_Z z).

(** [_nonnegative]: [np.vectorize] of [max(x, 0)] with no [otypes].  An
    empty array raises.  The type of the result is that of the value
    computed for the first entry: the integer 0 when that entry is
    negative, and then every value is converted to a 64-bit integer;
    otherwise binary64. *)
Definition _nonnegative (v : vec) : option vec :=
  match v with
  | [] => None
  | x0 :: _ =>
      if (x0 <? 0)%float
      then mapM (fun x => of_int64 <$> to_int64 (py_max0 x)) v
      else Some (map py_max0 v)
  end.

(** [sum(d.values())] for a dictionary of columns: Python starts from
    the integer 0, which broadcasts like an array of shape [(1, 1)]. *)
Definition sum_vecs (vs : list vec) : option vec :=
  foldl (fun acc v => acc ≫= fun a => vadd a v) (Some [0%float]) vs.

(** [sum(d.values())] for a dictionary of numbers. *)
Definition sum_values (xs : list float) : float := foldl PrimFloat.add 0%float xs.

(** ** The problem instance and the block oracle *)

(** [block_data]: only the entries [optimize] uses after unpacking:
    ['A'] (one matrix per block), ['b'] (a column) and ['c'] (one row per
    block); the others are read and ignored. *)
Record BlockData := mkBlockData {
  bd_A : list matrix;
  bd_b : vec;
  bd_c : list vec
}.

(** [route]: the block oracle, a function of the flattened cost vector
    that answers with a column. *)
Record Route := mkRoute { solve_primal_by_mip : vec -> vec }.

(** ** [optimize] *)

(** One line of the diagnostic stream.  The columns [t] (wall-clock
    time) and [lobj] are printed and never read; their values are left
    out, and so is the banner of [show_log_header]. *)
Record LogLine := mkLogLine {
  log_k : nat;
  log_cx : float;
  log_eps_pfeas : float;
  log_eps_fp : float;
  log_rho : float;
  log_tau : float;
  log_iter : nat
}.

(** The local variables of [optimize] that change, the tuning store it
    mutates and the lines printed so far. *)
Record Loop := mkLoop {
  xk : list vec;
  _vAx : list vec;
  _vcx : list float;
  _eps_fix_point : list float;
  rho : float;
  tau : float;
  lbd : vec;
  it : option nat;
  bcdpar : BCDParams;
  stdout : list LogLine
}.

(** [it = i] and [print(line)]. *)
Definition with_it (i : nat) (st : Loop) : Loop :=
  mkLoop (xk st) (_vAx st) (_vcx st) (_eps_fix_point st)
    (rho st) (tau st) (lbd st) (Some i) (bcdpar st) (stdout st).

Definition print (line : LogLine) (st : Loop) : Loop :=
  mkLoop (xk st) (_vAx st) (_vcx st) (_eps_fix_point st)
    (rho st) (tau st) (lbd st) (it st) (bcdpar st) (stdout st ++ [line]).

Definition Anorm : float := 20%float.
Definition sigma : float := 2%float.
Definition rho0 : float := 1e-2%float.
Definition tau0 : float := (1 / (Anorm * Anorm * rho0))%float.
Definition tol : float := 1e-4%float.

(** How a [for] body ended: fell through to the next index, or [break]. *)
Inductive ctl := Next | Break.

(** [for k in range(k0, k0 + n): body], with [break]. *)
Fixpoint for_range {St : Type} (body : nat -> St -> option (ctl * St))
    (k n : nat) (s : St) : option (ctl * St) :=
  match n with
  | O => Some (Next, s)
  | S n' =>
      match body k s with
      | None => None
      | Some (Break, s') => Some (Break, s')
      | Some (Next, s') => for_range body (S k) n' s'
      end
  end.

(** The terminal states of the outer continuation loop. *)
Inductive terminal := CONVERGED | ITERATION_LIMIT.

Section Optimize.
Variable block_data : BlockData.
Variable route : Route.

Let A := bd_A block_data.
Let b := bd_b block_data.
Let c := bd_c block_data.

Definition nblock : nat := length A.

(** [_Ax - b] for [_Ax = sum(_vAx.values())]. *)
Definition residual (st : Loop) : option vec :=
  _Ax ← sum_vecs (_vAx st);
  vsub _Ax b.

(** [_nonnegative(_Ax - b + lbd / rho)]. *)
Definition shifted (st : Loop) : option vec :=
  r ← residual st;
  w ← vadd r (map (fun l => l / rho st)%float (lbd st));
  _nonnegative w.

(** The linearized cost [_c] of block [idx]. *)
Definition linearized_cost (idx : nat) (st : Loop) : option vec :=
  Ak ← A !! idx;
  cidx ← c !! idx;
  w ← shifted st;
  t ← mat_vec (mat_scale (rho st) (transpose Ak)) w;
  s ← vadd cidx t;
  xidx ← xk st !! idx;
  vadd s (map (fun x => (0.5 - x) / tau st)%float xidx).

(** The acceptance rule: the oracle's answer, or nothing selected. *)
Definition accept (_c _x : vec) : option vec :=
  _v_sp ← dot _c _x;
  Some (if (0 <? _v_sp)%float then zeros (length _c) else _x).

(** The block best-response step: what one turn of
    [for idx in range(nblock)] does to the state. *)
Definition block_update (idx : nat) (st : Loop) : option Loop :=
  Ak ← A !! idx;
  _c ← linearized_cost idx st;
  _x ← accept _c (solve_primal_by_mip route _c);
  xidx ← xk st !! idx;
  d ← vsub xidx _x;
  Ax ← mat_vec Ak _x;
  cidx ← c !! idx;
  cx ← dot cidx _x;
  Some {| xk := <[idx := _x]> (xk st);
          _vAx := <[idx := Ax]> (_vAx st);
          _vcx := <[idx := cx]> (_vcx st);
          _eps_fix_point := <[idx := norm d]> (_eps_fix_point st);
          rho := rho st; tau := tau st; lbd := lbd st; it := it st;
          bcdpar := bcdpar st; stdout := stdout st |}.

(** The body of [for idx in range(nblock)]; it has no [break]. *)
Definition block_step (idx : nat) (st : Loop) : option (ctl * Loop) :=
  pair Next <$> block_update idx st.

(** One full pass: [it] is bound to the pass index, then every block
    takes its turn. *)
Definition pass (i : nat) (st : Loop) : option Loop :=
  snd <$> for_range block_step 0 nblock (with_it i st).

(** The summed fixed-point residual. *)
Definition eps_fp_sum (st : Loop) : float := sum_values (_eps_fix_point st).

(** The body of [for it in range(bcdpar.linmax)]: one pass, then the
    fixed-point test. *)
Definition sweep_pass (i : nat) (st : Loop) : option (ctl * Loop) :=
  st ← pass i st;
  if (eps_fp_sum st <? tol)%float
  then Some (Break, st)
  else Some (Next, st).

(** [p] passes in a row, numbered from [i], without the test. *)
Fixpoint passes (i p : nat) (st : Loop) : option Loop :=
  match p with
  | O => Some st
  | S p' => st ← pass i st; passes (S i) p' st
  end.

(** The inner coordinate sweep. *)
Definition inner_sweep (st : Loop) : option Loop :=
  snd <$> for_range sweep_pass 0 (Z.to_nat (linmax (bcdpar st))) st.

(** The feasibility residual as the code computes it:
    [np.linalg.norm(_nonnegative(_Ax - b))]. *)
Definition eps_pfeas_of (st : Loop) : option float :=
  r ← residual st;
  norm <$> _nonnegative r.

(** The diagnostics computed after the sweep of outer iteration [k].
    The value of [lobj] is not kept, but the call of [_nonnegative] it
    makes can raise. *)
Definition diagnostics (k : nat) (st : Loop) : option LogLine :=
  eps_pfeas ← eps_pfeas_of st;
  let cx := sum_values (_vcx st) in
  _ ← shifted st;
  let eps_fp := eps_fp_sum st in
  i ← it st;
  Some (mkLogLine k cx eps_pfeas eps_fp (rho st) (tau st) (i + 1)).

(** The continuation step: [rho *= sigma], the multiplier update with
    the grown [rho], and [bcdpar.iter += 1]. *)
Definition grow (st : Loop) : option Loop :=
  let rho' := (rho st * sigma)%float in
  r ← residual st;
  t ← vadd (map (fun x => x * rho')%float r) (lbd st);
  lbd' ← _nonnegative t;
  Some {| xk := xk st; _vAx := _vAx st; _vcx := _vcx st;
          _eps_fix_point := _eps_fix_point st;
          rho := rho';
          tau := tau st;
          lbd := lbd';
          it := it st;
          bcdpar := set_iter (iter (bcdpar st) + 1) (bcdpar st);
          stdout := stdout st |}.

(** The exit test of the outer loop on a diagnostic line. *)
Definition converged (line : LogLine) : bool :=
  (log_eps_pfeas line =? 0)%float && (log_eps_fp line <? tol)%float.

(** The body of [for k in range(bcdpar.itermax)]. *)
Definition outer_step (k : nat) (st : Loop) : option (ctl * Loop) :=
  st ← inner_sweep st;
  line ← diagnostics k st;
  let st := print line st in
  if converged line
  then Some (Break, st)
  else pair Next <$> grow st.

(** The state on entry to the outer loop: [m, n = A[0].shape], the
    all-ones seed, and the two caches, whose comprehensions raise on a
    block with another number of columns than [n], on a cost row with
    another number of entries, and on more cost rows than blocks. *)
Definition init_loop (par : BCDParams) : option Loop :=
  A1 ← A !! 0%nat;
  let m := fst (shape A1) in
  let n := snd (shape A1) in
  vAx ← mapM (fun Ak => mat_vec Ak (ones n)) A;
  vcx ← (if decide (length c <= length A)%nat
         then mapM (fun cidx => dot cidx (ones n)) c
         else None);
  Some {| xk := map (fun _ => ones n) A;
          _vAx := vAx;
          _vcx := vcx;
          _eps_fix_point := map (fun _ => 0%float) A;
          rho := rho0;
          tau := tau0;
          lbd := map (PrimFloat.mul rho0) (ones m);
          it := None;
          bcdpar := par;
          stdout := [] |}.

(** The whole run: how the outer loop ended and the final state. *)
Definition optimize_run (par : BCDParams) : option (terminal * Loop) :=
  st ← init_loop par;
  '(how, st) ← for_range outer_step 0 (Z.to_nat (itermax (bcdpar st))) st;
  Some (match how with Break => CONVERGED | Next => ITERATION_LIMIT end, st).

(** [optimize]: the value returned is [xk]. *)
Definition optimize (par : BCDParams) : option (list vec) :=
  (fun r => xk (snd r)) <$> optimize_run par.

End Optimize.

(** ** Three small instances

    One block with one variable and cost 0, and an oracle that always
    selects every variable. *)

Definition select_all : Route :=
  {| solve_primal_by_mip := fun g => map (fun _ => 1%float) g |}.

(** One linking row [x <= b0]. *)
Definition one_block (b0 : float) : BlockData :=
  {| bd_A := [ {| shape := (1%nat, 1%nat); rows := [[1%float]] |} ];
     bd_b := [b0];
     bd_c := [[0%float]] |}.

(** Two linking rows, [0 * x <= 1] and [x <= 0.5]. *)
Definition two_rows : BlockData :=
  {| bd_A := [ {| shape := (2%nat, 1%nat); rows := [[0%float]; [1%float]] |} ];
     bd_b := [1%float; 0.5%float];
     bd_c := [[0%float]] |}.

(** Two linking rows that no choice of [x] changes, [0 * x <= -1] and
    [0 * x <= 0]. *)
Definition idle_rows : BlockData :=
  {| bd_A := [ {| shape := (2%nat, 1%nat); rows := [[0%float]; [0%float]] |} ];
     bd_b := [(-1)%float; 0%float];
     bd_c := [[0%float]] |}.

(** The default store with other iteration caps. *)
Definition with_caps (outer inner : Z) : BCDParams :=
  mkBCDParams 0.2 1 1 0.1 0 0 3 0 1e-6 [] [] 1 "pdhg_alm" None "jsp" 1
    ([], [], []) ([], [], []) outer inner.

(** ** Predicates of the statements *)

(** The entries of a vector are 0 or 1. *)
Definition binary (v : vec) : Prop :=
  Forall (fun x => x = 0%float \/ x = 1%float) v.

(** The oracle answers with 0-1 vectors. *)
Definition binary_oracle (route : Route) : Prop :=
  ∀ g, binary (solve_primal_by_mip route g).

(** [x < 0] is false: [x] is zero, positive or NaN. *)
Definition not_neg (x : float) : Prop := (x <? 0)%float = false.


(** The penalty weight after [g] continuation steps. *)
Fixpoint rho_seq (g : nat) : float :=
  match g with
  | O => rho0
  | S g' => (rho_seq g' * sigma)%float
  end.

(** The cached products agree with the iterate. *)
Definition coherent (bd : BlockData) (st : Loop) : Prop :=
  Forall2 (fun p v => mat_vec (fst p) (snd p) = Some v)
    (zip (bd_A bd) (xk st)) (_vAx st).

(** The cached block costs agree with the iterate. *)
Definition cost_coherent (bd : BlockData) (st : Loop) : Prop :=
  Forall2 (fun p v => dot (fst p) (snd p) = Some v)
    (zip (bd_c bd) (xk st)) (_vcx st).

(** What the inner sweep leaves alone. *)
Definition frame (st st' : Loop) : Prop :=
  rho st' = rho st ∧ tau st' = tau st ∧ lbd st' = lbd st
  ∧ bcdpar st' = bcdpar st ∧ stdout st' = stdout st
  ∧ length (xk st') = length (xk st)
  ∧ length (_eps_fix_point st') = length (_eps_fix_point st).

(** The number of continuation steps of a run, from how it ended and
    the lines it printed. *)
Definition steps (how : terminal) (st : Loop) : nat :=
  match how with
  | CONVERGED => pred (length (stdout st))
  | ITERATION_LIMIT => length (stdout st)
  end.


(** What holds on entry to outer iteration [k] and throughout its
    sweep. *)
Record run_inv (bd : BlockData) (route : Route) (par : BCDParams)
    (k : nat) (st : Loop) : Prop := mk_run_inv {
  inv_len : length (xk st) = nblock bd;
  inv_eps : length (_eps_fix_point st) = nblock bd;
  inv_coh : coherent bd st;
  inv_cost : cost_coherent bd st;
  inv_rho : rho st = rho_seq k;
  inv_tau : tau st = tau0;
  inv_lbd : Forall not_neg (lbd st);
  inv_iter : iter (bcdpar st) = (iter par + Z.of_nat k)%Z;
  inv_par : set_iter 0 (bcdpar st) = set_iter 0 par;
  inv_it : ∀ i, it st = Some i → (i < Z.to_nat (linmax par))%nat;
  inv_lines : length (stdout st) = k;
  inv_log : ∀ j line, stdout st !! j = Some line →
    log_k line = j ∧ log_rho line = rho_seq j ∧ log_tau line = tau0
    ∧ converged line = false
    ∧ (1 <= log_iter line <= Z.to_nat (linmax par))%nat;
  inv_bin : binary_oracle route → Forall binary (xk st)
}.

(** What holds of the final state of a run that returns. *)
Record run_post (bd : BlockData) (route : Route) (par : BCDParams)
    (how : terminal) (st : Loop) : Prop := mk_run_post {
  post_len : length (xk st) = nblock bd;
  post_coh : coherent bd st;
  post_cost : cost_coherent bd st;
  post_tau : tau st = tau0;
  post_rho : rho st = rho_seq (steps how st);
  post_lbd : Forall not_neg (lbd st);
  post_iter : iter (bcdpar st) = (iter par + Z.of_nat (steps how st))%Z;
  post_par : set_iter 0 (bcdpar st) = set_iter 0 par;
  post_bin : binary_oracle route → Forall binary (xk st);
  post_cap : (length (stdout st) <= Z.to_nat (itermax par))%nat;
  post_limit : how = ITERATION_LIMIT →
    length (stdout st) = Z.to_nat (itermax par);
  post_break : how = CONVERGED → (0 < length (stdout st))%nat;
  post_log : ∀ j line, stdout st !! j = Some line →
    log_k line = j ∧ log_rho line = rho_seq j ∧ log_tau line = tau0
    ∧ (1 <= log_iter line <= Z.to_nat (linmax par))%nat
    ∧ (converged line = true ↔ how = CONVERGED ∧ S j = length (stdout st));
  post_last : ∀ line, last (stdout st) = Some line →
    eps_pfeas_of bd st = Some (log_eps_pfeas line)
    ∧ log_eps_fp line = eps_fp_sum st
    ∧ log_cx line = sum_values (_vcx st)
}.

(** * Properties *)

(** ** The tuning / state store *)

(** Decide one real comparison of the code: of the two branches, the one
    that the arithmetic excludes is closed, the other is left. *)
Ltac by_lra := exfalso; lra.

Ltac split_dec d := first [ destruct d; [by_lra|] | destruct d; [|by_lra] ].

Ltac decide_R :=
  match goal with
  | |- context [Rge_dec ?x ?y] => split_dec (Rge_dec x y)
  | |- context [Rgt_dec ?x ?y] => split_dec (Rgt_dec x y)
  | |- context [Rlt_dec ?x ?y] => split_dec (Rlt_dec x y)
  | |- context [Rle_dec ?x ?y] => split_dec (Rle_dec x y)
  | |- context [Req_dec_T ?x ?y] => split_dec (Req_dec_T x y)
  end.

Lemma py_min_foldl (r : list R) (x : R) :
  let m := foldl (fun cur y => if Rlt_dec y cur then y else cur) x r in
  m ∈ x :: r ∧ ∀ u, u ∈ x :: r → m <= u.
Proof.
  revert x. induction r as [|y r IH]; intros x; cbn.
  - split; [left|]. intros u Hu. apply list_elem_of_singleton in Hu. lra.
  - destruct (Rlt_dec y x) as [Hlt|Hge].
    + destruct (IH y) as [Hin Hle]. split; [by right|].
      intros u Hu. apply elem_of_cons in Hu as [->|Hu]; [|by apply Hle].
      specialize (Hle y (list_elem_of_here _ _)). lra.
    + destruct (IH x) as [Hin Hle]. split.
      { apply elem_of_cons in Hin as [->|Hin]; [left|by do 2 right]. }
      intros u Hu. apply elem_of_cons in Hu as [->|Hu]; [apply Hle; left|].
      apply elem_of_cons in Hu as [->|Hu]; [|by apply Hle; right].
      specialize (Hle x (list_elem_of_here _ _)). lra.
Qed.

Lemma py_max_foldl (r : list R) (x : R) :
  let m := foldl (fun cur y => if Rgt_dec y cur then y else cur) x r in
  m ∈ x :: r ∧ ∀ u, u ∈ x :: r → u <= m.
Proof.
  revert x. induction r as [|y r IH]; intros x; cbn.
  - split; [left|]. intros u Hu. apply list_elem_of_singleton in Hu. lra.
  - destruct (Rgt_dec y x) as [Hlt|Hge].
    + destruct (IH y) as [Hin Hle]. split; [by right|].
      intros u Hu. apply elem_of_cons in Hu as [->|Hu]; [|by apply Hle].
      specialize (Hle y (list_elem_of_here _ _)). lra.
    + destruct (IH x) as [Hin Hle]. split.
      { apply elem_of_cons in Hin as [->|Hin]; [left|by do 2 right]. }
      intros u Hu. apply elem_of_cons in Hu as [->|Hu]; [apply Hle; left|].
      apply elem_of_cons in Hu as [->|Hu]; [|by apply Hle; right].
      specialize (Hle x (list_elem_of_here _ _)). lra.
Qed.

Lemma py_min_spec (l : list R) :
  l ≠ [] → ∃ m, py_min l = Some m ∧ m ∈ l ∧ ∀ u, u ∈ l → m <= u.
Proof.
  destruct l as [|x r]; [done|]. intros _. eexists. split; [done|].
  apply py_min_foldl.
Qed.

Lemma py_max_spec (l : list R) :
  l ≠ [] → ∃ m, py_max l = Some m ∧ m ∈ l ∧ ∀ u, u ∈ l → u <= m.
Proof.
  destruct l as [|x r]; [done|]. intros _. eexists. split; [done|].
  apply py_max_foldl.
Qed.

Lemma update_bound_stuck (v : R) (s : BCDParams) :
  v < lb s → (num_stuck s + 1 < eps_num_stuck s)%Z →
  update_bound v s
  = set_lb_arr (lb_arr s ++ [v])
      (set_num_stuck (num_stuck s + 1) (set_changed 0 s)).
Proof.
  intros Hlt Hn. unfold update_bound.
  destruct (Rge_dec v (lb s)); [lra|]. cbn.
  destruct (Z_ge_dec _ _); [lia|]. reflexivity.
Qed.

Lemma update_bound_damp (v : R) (s : BCDParams) :
  v < lb s → (num_stuck s + 1 >= eps_num_stuck s)%Z →
  update_bound v s
  = set_lb_arr (lb_arr s ++ [v])
      (set_num_stuck 0
         (set_kappa (kappa s * 0.5)
            (set_num_stuck (num_stuck s + 1) (set_changed 0 s)))).
Proof.
  intros Hlt Hn. unfold update_bound.
  destruct (Rge_dec v (lb s)); [lra|]. cbn.
  destruct (Z_ge_dec _ _); [|lia]. reflexivity.
Qed.

(** C7.  [update_bound lb] with the threshold 3 of [__init__]: the value
    is appended to [lb_arr] in every case; a value [>=] the best bound
    becomes the best bound, sets [changed] to 1 and [num_stuck] to 0 and
    leaves [kappa] alone; a smaller value sets [changed] to 0 and counts
    one more stuck call, and when that count reaches 3 [kappa] is halved
    once and the count returns to 0.  Starting from a count of 0, three
    non-improving calls in a row halve [kappa] exactly once (on the third
    call) and leave the count at 0. *)
Theorem update_bound_spec (v : R) (s : BCDParams) :
  eps_num_stuck s = 3%Z →
  let s' := update_bound v s in
  lb_arr s' = lb_arr s ++ [v]
  ∧ eps_num_stuck s' = 3%Z
  ∧ (v >= lb s →
       lb s' = v ∧ changed s' = 1%Z ∧ num_stuck s' = 0%Z ∧ kappa s' = kappa s)
  ∧ (v < lb s →
       lb s' = lb s ∧ changed s' = 0%Z
       ∧ ((num_stuck s + 1 < 3)%Z →
            num_stuck s' = (num_stuck s + 1)%Z ∧ kappa s' = kappa s)
       ∧ ((num_stuck s + 1 >= 3)%Z →
            num_stuck s' = 0%Z ∧ kappa s' = kappa s * 0.5))
  ∧ (num_stuck s = 0%Z →
       ∀ v2 v3, v < lb s → v2 < lb s → v3 < lb s →
         let s1 := update_bound v s in
         let s2 := update_bound v2 s1 in
         let s3 := update_bound v3 s2 in
         kappa s1 = kappa s ∧ kappa s2 = kappa s
         ∧ kappa s3 = kappa s * 0.5 ∧ num_stuck s3 = 0%Z
         ∧ changed s3 = 0%Z ∧ lb s3 = lb s
         ∧ lb_arr s3 = lb_arr s ++ [v; v2; v3]).
Proof.
  intros Heps. split_and!.
  - unfold update_bound. destruct (Rge_dec v (lb s)); cbn;
      destruct (Z_ge_dec _ _); reflexivity.
  - unfold update_bound. destruct (Rge_dec v (lb s)); cbn;
      destruct (Z_ge_dec _ _); cbn; exact Heps.
  - intros Hge. unfold update_bound.
    destruct (Rge_dec v (lb s)); [|lra]. cbn.
    destruct (Z_ge_dec _ _); [lia|]. done.
  - intros Hlt. unfold update_bound.
    destruct (Rge_dec v (lb s)); [lra|]. cbn.
    destruct (Z_ge_dec _ _); cbn; split_and!; try done; intros; lia.
  - intros H0 v2 v3 H1 H2 H3. cbv zeta.
    rewrite (update_bound_stuck v s) by (rewrite ?Heps, ?H0; done).
    rewrite (update_bound_stuck v2) by (cbn; rewrite ?Heps, ?H0; done).
    rewrite (update_bound_damp v3) by (cbn; rewrite ?Heps, ?H0; done).
    cbn. split_and!; try done. by rewrite <- !app_assoc.
Qed.

Lemma update_bound_spec_witness :
  kappa (update_bound 0 (update_bound 0 (update_bound 0 (init ∅))))
  = kappa (init ∅) * 0.5.
Proof.
  assert (Heps : eps_num_stuck (init ∅) = 3%Z) by reflexivity.
  assert (Hlb : 0 < lb (init ∅)) by (cbn -[Z.pow_pos]; lra).
  destruct (update_bound_spec 0 (init ∅) Heps) as (_ & _ & _ & _ & H3).
  destruct (H3 eq_refl 0 0 Hlb Hlb Hlb) as (_ & _ & Hk & _).
  exact Hk.
Defined.

(** C8.  With both histories non-empty [update_gap] succeeds and stores
    [(min ub_arr - max lb_arr) / (|max lb_arr| + 1e-3)], where the minimum
    and the maximum are elements of the histories that bound all the
    others; nothing else changes.  For [lb_arr = [1.0, 2.0, 1.5]] and
    [ub_arr = [10.0, 8.0]] the stored gap is [(8 - 2) / (2 + 1e-3)]. *)
Theorem update_gap_spec :
  (∀ s : BCDParams, lb_arr s ≠ [] → ub_arr s ≠ [] →
     ∃ best_ub best_lb,
       best_ub ∈ ub_arr s ∧ (∀ u, u ∈ ub_arr s → best_ub <= u)
       ∧ best_lb ∈ lb_arr s ∧ (∀ l, l ∈ lb_arr s → l <= best_lb)
       ∧ update_gap s
         = Some (set_gap ((best_ub - best_lb) / (Rabs best_lb + 1e-3)) s))
  ∧ (∀ s : BCDParams, lb_arr s = [1; 2; 1.5] → ub_arr s = [10; 8] →
       gap <$> update_gap s = Some ((8 - 2) / (2 + 1e-3))).
Proof.
  split.
  - intros s Hlb Hub.
    destruct (py_min_spec _ Hub) as (mn & Hmn & Hmn_in & Hmn_le).
    destruct (py_max_spec _ Hlb) as (mx & Hmx & Hmx_in & Hmx_le).
    exists mn, mx. split_and!; try done.
    unfold update_gap. rewrite Hmn, Hmx. reflexivity.
  - intros s Hlb Hub. unfold update_gap. rewrite Hlb, Hub. cbn -[Z.pow_pos Q2R].
    repeat decide_R. do 2 f_equal.
    rewrite Rabs_pos_eq by lra. reflexivity.
Qed.

Lemma update_gap_spec_witness :
  gap <$> update_gap (set_ub_arr [10; 8] (set_lb_arr [1; 2; 1.5] (init ∅)))
  = Some ((8 - 2) / (2 + 1e-3)).
Proof.
  apply (proj2 update_gap_spec); reflexivity.
Defined.

(** C10 (what the code does).  [reset] gives [num_stuck], [iter], both
    histories and the three mode selectors the values [__init__] gives
    them under the same environment, but it never assigns [changed]: after
    an improving [update_bound] the flag is 1 and stays 1 across [reset],
    whereas a fresh store has 0. *)
Theorem reset_keeps_changed :
  (∀ env s,
     let s' := reset env s in
     let s0 := init env in
     num_stuck s' = num_stuck s0 ∧ iter s' = iter s0
     ∧ lb_arr s' = lb_arr s0 ∧ ub_arr s' = ub_arr s0
     ∧ dual_method s' = dual_method s0
     ∧ primal_heuristic_method s' = primal_heuristic_method s0
     ∧ feasible_provider s' = feasible_provider s0
     ∧ changed s' = changed s)
  ∧ changed (reset ∅ (update_bound 1 (init ∅))) = 1%Z
  ∧ changed (init ∅) = 0%Z.
Proof.
  split; [|split].
  - intros env s. cbn. split_and!; reflexivity.
  - unfold update_bound. cbn -[Z.pow_pos Q2R]. decide_R. reflexivity.
  - reflexivity.
Qed.

(** ** Loop rules for [for_range] *)

Section ForRange.
Context {St : Type} (body : nat → St → option (ctl * St)).
Variable Inv : nat → St → Prop.

(** An invariant kept by every turn that falls through holds when the
    range is exhausted; after a [break] it held on entry to the turn
    that broke. *)
Lemma for_range_inv :
  (∀ k s s', Inv k s → body k s = Some (Next, s') → Inv (S k) s') →
  ∀ n k s how s', Inv k s → for_range body k n s = Some (how, s') →
    match how with
    | Next => Inv (k + n)%nat s'
    | Break => ∃ p s0, (p < n)%nat ∧ Inv (k + p)%nat s0
                       ∧ body (k + p)%nat s0 = Some (Break, s')
    end.
Proof.
  intros Hstep n. induction n as [|n IH]; intros k s how s' HI Hrun; cbn in Hrun.
  - inversion Hrun; subst. by rewrite Nat.add_0_r.
  - destruct (body k s) as [[[] s1]|] eqn:Hb; [| |done].
    + specialize (IH (S k) s1 how s' (Hstep _ _ _ HI Hb) Hrun).
      destruct how.
      * by replace (k + S n)%nat with (S k + n)%nat by lia.
      * destruct IH as (p & s0 & Hp & HI0 & Hb0).
        exists (S p), s0. replace (k + S p)%nat with (S k + p)%nat by lia.
        split_and!; [lia|done|done].
    + inversion Hrun; subst. exists 0%nat, s.
      rewrite Nat.add_0_r. split_and!; [lia|done|done].
Qed.

(** If every turn of the range, taken from an invariant state, returns
    and keeps the invariant when it falls through, the loop returns. *)
Lemma for_range_total (n k : nat) (s : St) :
  Inv k s →
  (∀ j s, (k <= j < k + n)%nat → Inv j s →
     ∃ how s', body j s = Some (how, s') ∧ (how = Next → Inv (S j) s')) →
  is_Some (for_range body k n s).
Proof.
  revert k s. induction n as [|n IH]; intros k s HI Hstep; cbn; [done|].
  destruct (Hstep k s ltac:(lia) HI) as (how & s' & -> & Hnext).
  destruct how; [|done].
  apply IH; [auto|]. intros j s0 Hj. apply Hstep. lia.
Qed.
End ForRange.


(** ** Facts about binary64 comparisons *)

Lemma py_max0_not_neg (x : float) : not_neg (py_max0 x).
Proof.
  unfold not_neg, py_max0. destruct (x <? 0)%float eqn:Hx; [reflexivity|exact Hx].
Qed.

(** What rounding can return: zero, a finite number or the infinity of
    the sign asked for, or NaN. *)
Lemma binary_round_aux_sign (sx : bool) (mx ex : Z) (lx : location) :
  match binary_round_aux prec emax sx mx ex lx with
  | S754_zero s | S754_infinity s | S754_finite s _ _ => s = sx
  | S754_nan => True
  end.
Proof.
  unfold binary_round_aux.
  destruct (shr_fexp prec emax mx ex lx) as [mrs' e'].
  destruct (shr_fexp prec emax _ e' loc_Exact) as [mrs'' e''].
  destruct (shr_m mrs''); [done| |done].
  by destruct (e'' <=? emax - prec)%Z.
Qed.

Lemma SFltb_zero_sign (x : spec_float) :
  match x with
  | S754_zero s | S754_infinity s | S754_finite s _ _ => s = false
  | S754_nan => True
  end →
  SFltb x (S754_zero false) = false.
Proof. destruct x as [s|s| |s m e]; cbn; intros H; try done; by subst. Qed.

Lemma Prim2SF_zero : Prim2SF 0%float = S754_zero false.
Proof. reflexivity. Qed.

Lemma of_uint63_not_neg (n : PrimInt63.int) : not_neg (of_uint63 n).
Proof.
  unfold not_neg. rewrite FloatAxioms.ltb_spec, of_uint63_spec, Prim2SF_zero.
  apply SFltb_zero_sign. unfold binary_normalize.
  destruct (Uint63Axioms.to_Z n) as [|p|p] eqn:Hn.
  - done.
  - unfold binary_round.
    destruct (shl_align _ _ _) as [mz ez].
    apply binary_round_aux_sign.
  - pose proof (Uint63.to_Z_bounded n) as Hb. 
    change (Uint63.to_Z  n) with (Uint63Axioms.to_Z n) in Hb. lia.
Qed.

Lemma nonnegative_not_neg (v w : vec) :
  _nonnegative v = Some w → Forall not_neg w.
Proof.
  unfold _nonnegative. destruct v as [|x0 v0]; [done|].
  destruct (x0 <? 0)%float.
  - intros H. apply mapM_Some in H.
    induction H as [|x y l k Hxy _ IH]; constructor; [|done].
    destruct (to_int64 (py_max0 x)) as [z|]; [|done]. cbn in Hxy.
    inversion Hxy; subst. apply of_uint63_not_neg.
  - intros [= <-]. change (Forall not_neg (py_max0 <$> x0 :: v0)).
    apply Forall_fmap, Forall_true. intros x. apply py_max0_not_neg.
Qed.

(** A number that is neither negative nor NaN is at least 0. *)
Lemma not_neg_ge_0 (x : float) :
  not_neg x → is_nan x = false → (0 <=? x)%float = true.
Proof.
  unfold not_neg, is_nan. rewrite FloatAxioms.ltb_spec, FloatAxioms.leb_spec, FloatAxioms.eqb_spec, Prim2SF_zero.
  destruct (Prim2SF x) as [[]|[]| |[] m e]; cbv; congruence.
Qed.






(** ** The block best-response step *)

Lemma binary_zeros (n : nat) : binary (zeros n).
Proof. apply Forall_replicate. by left. Qed.

Lemma binary_ones (n : nat) : binary (ones n).
Proof. apply Forall_replicate. by right. Qed.

Lemma accept_Some (g x x' : vec) :
  accept g x = Some x' →
  ∃ v, dot g x = Some v
    ∧ x' = if (0 <? v)%float then zeros (length g) else x.
Proof.
  unfold accept. destruct (dot g x) as [v|]; [|done]. cbn.
  intros [= <-]. by exists v.
Qed.

Lemma accept_binary (g x x' : vec) :
  binary x → accept g x = Some x' → binary x'.
Proof.
  intros Hx H. apply accept_Some in H as (v & _ & ->).
  destruct (0 <? v)%float; [apply binary_zeros|done].
Qed.

Section BlockFacts.
Variables (bd : BlockData) (route : Route).

Lemma block_update_Some (idx : nat) (st st' : Loop) :
  block_update bd route idx st = Some st' →
  ∃ Ak g x xidx d Ax cidx cx,
    bd_A bd !! idx = Some Ak
    ∧ linearized_cost bd idx st = Some g
    ∧ accept g (solve_primal_by_mip route g) = Some x
    ∧ xk st !! idx = Some xidx
    ∧ vsub xidx x = Some d
    ∧ mat_vec Ak x = Some Ax
    ∧ bd_c bd !! idx = Some cidx
    ∧ dot cidx x = Some cx
    ∧ st' = {| xk := <[idx := x]> (xk st);
               _vAx := <[idx := Ax]> (_vAx st);
               _vcx := <[idx := cx]> (_vcx st);
               _eps_fix_point := <[idx := norm d]> (_eps_fix_point st);
               rho := rho st; tau := tau st; lbd := lbd st; it := it st;
               bcdpar := bcdpar st; stdout := stdout st |}.
Proof.
  unfold block_update. intros H.
  destruct (bd_A bd !! idx) as [Ak|] eqn:HA; [|done]. cbn in H.
  destruct (linearized_cost bd idx st) as [g|] eqn:Hg; [|done]. cbn in H.
  destruct (accept g _) as [x|] eqn:Hx; [|done]. cbn in H.
  destruct (xk st !! idx) as [xidx|] eqn:Hxi; [|done]. cbn in H.
  destruct (vsub xidx x) as [d|] eqn:Hd; [|done]. cbn in H.
  destruct (mat_vec Ak x) as [Ax|] eqn:HAx; [|done]. cbn in H.
  destruct (bd_c bd !! idx) as [cidx|] eqn:Hc; [|done]. cbn in H.
  destruct (dot cidx x) as [cx|] eqn:Hcx; [|done]. cbn in H.
  inversion H. by exists Ak, g, x, xidx, d, Ax, cidx, cx.
Qed.

Lemma block_update_frame (idx : nat) (st st' : Loop) :
  block_update bd route idx st = Some st' → frame st st' ∧ it st' = it st.
Proof.
  intros H. apply block_update_Some in H
    as (Ak & g & x & xidx & d & Ax & cidx & cx & _ & _ & _ & _ & _ & _ & _ & _ & ->).
  unfold frame. cbn. by rewrite !length_insert.
Qed.

Lemma block_update_coherent (idx : nat) (st st' : Loop) :
  coherent bd st → block_update bd route idx st = Some st' → coherent bd st'.
Proof.
  unfold coherent. intros Hco H.
  apply block_update_Some in H
    as (Ak & g & x & xidx & d & Ax & cidx & cx & HA & _ & _ & _ & _ & HAx & _ & _ & ->).
  cbn. rewrite <- (list_insert_id (bd_A bd) idx Ak HA).
  rewrite <- (insert_zip_with pair). by apply Forall2_insert.
Qed.

Lemma block_update_cost_coherent (idx : nat) (st st' : Loop) :
  cost_coherent bd st → block_update bd route idx st = Some st' →
  cost_coherent bd st'.
Proof.
  unfold cost_coherent. intros Hco H.
  apply block_update_Some in H
    as (Ak & g & x & xidx & d & Ax & cidx & cx & _ & _ & _ & _ & _ & _ & Hc & Hcx & ->).
  cbn. rewrite <- (list_insert_id (bd_c bd) idx cidx Hc).
  rewrite <- (insert_zip_with pair). by apply Forall2_insert.
Qed.

Lemma block_update_binary (idx : nat) (st st' : Loop) :
  binary_oracle route →
  Forall binary (xk st) → block_update bd route idx st = Some st' →
  Forall binary (xk st').
Proof.
  intros Hor Hb H.
  apply block_update_Some in H
    as (Ak & g & x & xidx & d & Ax & cidx & cx & _ & _ & Hx & _ & _ & _ & _ & _ & ->).
  cbn. apply Forall_insert; [done|]. eapply accept_binary; [apply Hor|exact Hx].
Qed.
End BlockFacts.

(** ** The inner coordinate sweep *)

Lemma frame_refl (st : Loop) : frame st st.
Proof. by unfold frame. Qed.

Lemma frame_trans (s1 s2 s3 : Loop) : frame s1 s2 → frame s2 s3 → frame s1 s3.
Proof.
  unfold frame. intros (?&?&?&?&?&?&?) (?&?&?&?&?&?&?). split_and!; congruence.
Qed.

Section SweepFacts.
Variables (bd : BlockData) (route : Route).

(** What every state reached inside a pass started from [st0] has. *)
Let PassInv (i : nat) (st0 : Loop) (k : nat) (s : Loop) : Prop :=
  frame st0 s ∧ it s = Some i
  ∧ (coherent bd st0 → coherent bd s)
  ∧ (cost_coherent bd st0 → cost_coherent bd s)
  ∧ (binary_oracle route → Forall binary (xk st0) → Forall binary (xk s))
  ∧ (∀ j, (k <= j)%nat → xk s !! j = xk st0 !! j)
  ∧ (length (_eps_fix_point st0) = length (xk st0) →
     ∀ j x0 x1, (j < k)%nat →
       xk st0 !! j = Some x0 → xk s !! j = Some x1 →
       ∃ d, vsub x0 x1 = Some d ∧ _eps_fix_point s !! j = Some (norm d)).

Lemma pass_facts (i : nat) (st st' : Loop) :
  pass bd route i st = Some st' →
  frame st st' ∧ it st' = Some i
  ∧ (coherent bd st → coherent bd st')
  ∧ (cost_coherent bd st → cost_coherent bd st')
  ∧ (binary_oracle route → Forall binary (xk st) → Forall binary (xk st'))
  ∧ (length (_eps_fix_point st) = length (xk st) →
     ∀ j x0 x1, (j < nblock bd)%nat →
       xk st !! j = Some x0 → xk st' !! j = Some x1 →
       ∃ d, vsub x0 x1 = Some d ∧ _eps_fix_point st' !! j = Some (norm d)).
Proof.
  unfold pass. intros H.
  destruct (for_range _ _ _ _) as [[how s']|] eqn:Hrun; [|done].
  cbn in H. inversion H; subst s'. clear H.
  assert (Hinit : PassInv i st 0 (with_it i st)).
  { split_and!; try done. intros _ j x0 x1 Hj. lia. }
  assert (Hstep : ∀ k s s1, PassInv i st k s →
            block_step bd route k s = Some (Next, s1) → PassInv i st (S k) s1).
  { intros k s s1 (Hf & Hit & Hco & Hcc & Hbin & Hrest & Hres) Hb.
    unfold block_step in Hb.
    destruct (block_update bd route k s) as [s2|] eqn:Hu; [|done].
    cbn in Hb. inversion Hb; subst s2. clear Hb.
    destruct (block_update_frame _ _ _ _ _ Hu) as [Hf' Hit'].
    split; [by eapply frame_trans|]. split; [congruence|]. split.
    { intros H0. eapply block_update_coherent; [apply Hco, H0|exact Hu]. }
    split.
    { intros H0. eapply block_update_cost_coherent; [apply Hcc, H0|exact Hu]. }
    split.
    { intros Hor H0.
      eapply block_update_binary; [exact Hor|by apply Hbin|exact Hu]. }
    apply block_update_Some in Hu
      as (Ak & g & x & xidx & d & Ax & cidx & cx & _ & _ & _ & Hxi & Hd & _ & _ & _ & ->).
    cbn. split.
    - intros j Hj. rewrite list_lookup_insert_ne by lia. apply Hrest. lia.
    - intros Hlen j x0 x1 Hj H0 H1.
      destruct (decide (j = k)) as [->|Hne].
      + rewrite Hrest in Hxi by lia. rewrite H0 in Hxi. inversion Hxi; subst xidx.
        assert (Hk : (k < length (xk s))%nat).
        { apply lookup_lt_Some in H0. destruct Hf as (_&_&_&_&_&Hl&_). lia. }
        rewrite list_lookup_insert_eq in H1 by done. inversion H1; subst x1.
        exists d. split; [done|].
        apply list_lookup_insert_eq.
        destruct Hf as (_&_&_&_&_&Hl&He). lia.
      + rewrite list_lookup_insert_ne in H1 by done.
        rewrite list_lookup_insert_ne by done.
        apply (Hres Hlen j x0 x1); [lia|done|done]. }
  pose proof (for_range_inv _ _ Hstep _ _ _ _ _ Hinit Hrun) as Hinv.
  destruct how.
  - destruct Hinv as (Hf & Hit & Hco & Hcc & Hbin & _ & Hres).
    split_and!; done.
  - destruct Hinv as (q & s0 & _ & _ & Hb). unfold block_step in Hb.
    destruct (block_update _ _ _ _); cbn in Hb; done.
Qed.


Lemma passes_facts (p i : nat) (st st' : Loop) :
  passes bd route i p st = Some st' →
  frame st st'
  ∧ (coherent bd st → coherent bd st')
  ∧ (cost_coherent bd st → cost_coherent bd st')
  ∧ (binary_oracle route → Forall binary (xk st) → Forall binary (xk st'))
  ∧ ((0 < p)%nat → it st' = Some (i + p - 1)%nat).
Proof.
  revert i st. induction p as [|p IH]; intros i st H; cbn in H.
  - inversion H; subst.
    split; [apply frame_refl|]. split; [done|]. split; [done|]. split; [done|lia].
  - destruct (pass bd route i st) as [s1|] eqn:Hp; [|done]. cbn in H.
    destruct (pass_facts _ _ _ Hp) as (Hf & Hit & Hco & Hcc & Hbin & _).
    destruct (IH _ _ H) as (Hf' & Hco' & Hcc' & Hbin' & Hit').
    split; [by eapply frame_trans|]. split; [auto|]. split; [auto|].
    split; [auto|].
    intros _. destruct p as [|p].
    + cbn in H. inversion H; subst.
      rewrite Hit. f_equal. lia.
    + rewrite Hit' by lia. f_equal. lia.
Qed.

(** The sweep as a number of passes: it never goes on after a pass
    whose residual is below the tolerance, and it stops before the cap
    only after such a pass. *)
Lemma sweep_loop_spec (n i : nat) (st : Loop) (how : ctl) (st' : Loop) :
  for_range (sweep_pass bd route) i n st = Some (how, st') →
  ∃ p, (p <= n)%nat
    ∧ passes bd route i p st = Some st'
    ∧ (∀ j sj, (0 < j < p)%nat → passes bd route i j st = Some sj →
         (eps_fp_sum sj <? tol)%float = false)
    ∧ (how = Break → (0 < p)%nat ∧ (eps_fp_sum st' <? tol)%float = true)
    ∧ (how = Next → p = n
         ∧ ((0 < p)%nat → (eps_fp_sum st' <? tol)%float = false)).
Proof.
  revert i st. induction n as [|n IH]; intros i st H; cbn in H.
  - inversion H; subst. exists 0%nat. split_and!; try done; try lia.
  - unfold sweep_pass in H at 1.
    destruct (pass bd route i st) as [s1|] eqn:Hp; [|done]. cbn in H.
    destruct (eps_fp_sum s1 <? tol)%float eqn:Hlt.
    + inversion H; subst. exists 1%nat. cbn. rewrite Hp. cbn.
      split_and!; try done; try lia. intros _. split; [lia|done].
    + destruct (IH _ _ H) as (p & Hle & Hps & Hmid & Hbrk & Hnext).
      exists (S p). cbn. rewrite Hp. cbn. split_and!; [lia|done| | |].
      * intros [|j] sj Hj; [lia|]. cbn. rewrite Hp. cbn.
        destruct j as [|j]; [cbn; by intros [= <-]|].
        apply Hmid. lia.
      * intros Hb. destruct (Hbrk Hb). split; [lia|done].
      * intros Hn. destruct (Hnext Hn) as [-> Hres]. split; [done|].
        intros _. destruct n as [|n]; [|apply Hres; lia].
        cbn in Hps. by inversion Hps; subst.
Qed.

Lemma inner_sweep_facts (st st' : Loop) :
  inner_sweep bd route st = Some st' →
  frame st st'
  ∧ (coherent bd st → coherent bd st')
  ∧ (cost_coherent bd st → cost_coherent bd st')
  ∧ (binary_oracle route → Forall binary (xk st) → Forall binary (xk st'))
  ∧ ((0 < linmax (bcdpar st))%Z → is_Some (it st')).
Proof.
  unfold inner_sweep. intros H.
  destruct (for_range _ _ _ _) as [[how s']|] eqn:Hrun; [|done].
  cbn in H. inversion H; subst s'. clear H.
  destruct (sweep_loop_spec _ _ _ _ _ Hrun) as (p & Hle & Hps & _ & Hbrk & Hnext).
  destruct (passes_facts _ _ _ _ Hps) as (Hf & Hco & Hcc & Hbin & Hit).
  split; [done|]. split; [done|]. split; [done|]. split; [done|].
  intros Hlin. rewrite Hit; [done|].
  destruct how; [destruct (Hnext eq_refl); lia|by destruct (Hbrk eq_refl)].
Qed.
End SweepFacts.

(** ** The outer continuation loop *)

Section OuterFacts.
Variables (bd : BlockData) (route : Route).

Lemma diagnostics_Some (k : nat) (st : Loop) (line : LogLine) :
  diagnostics bd k st = Some line →
  ∃ e i, eps_pfeas_of bd st = Some e ∧ it st = Some i
    ∧ is_Some (shifted bd st)
    ∧ line = mkLogLine k (sum_values (_vcx st)) e (eps_fp_sum st)
               (rho st) (tau st) (i + 1).
Proof.
  unfold diagnostics.
  destruct (eps_pfeas_of bd st) as [e|]; [|done]. cbn.
  destruct (shifted bd st) as [w|]; [|done]. cbn.
  destruct (it st) as [i|]; [|done]. cbn.
  intros [= <-]. by exists e, i.
Qed.

Lemma grow_Some (st st' : Loop) :
  grow bd st = Some st' →
  ∃ r t l',
    residual bd st = Some r
    ∧ vadd (map (fun x => x * (rho st * sigma))%float r) (lbd st) = Some t
    ∧ _nonnegative t = Some l'
    ∧ st' = {| xk := xk st; _vAx := _vAx st; _vcx := _vcx st;
               _eps_fix_point := _eps_fix_point st;
               rho := (rho st * sigma)%float;
               tau := tau st;
               lbd := l';
               it := it st;
               bcdpar := set_iter (iter (bcdpar st) + 1) (bcdpar st);
               stdout := stdout st |}.
Proof.
  unfold grow. destruct (residual bd st) as [r|]; [|done]. cbn.
  destruct (vadd _ (lbd st)) as [t|] eqn:Ht; [|done]. cbn.
  destruct (_nonnegative t) as [l'|] eqn:Hl; [|done]. cbn.
  intros [= <-]. by exists r, t, l'.
Qed.

(** One turn of the outer loop: the sweep, the printed line, and either
    [break] on a line that meets the exit test or the continuation
    step. *)
Lemma outer_step_Some (k : nat) (st : Loop) (how : ctl) (st' : Loop) :
  outer_step bd route k st = Some (how, st') →
  ∃ st1 line,
    inner_sweep bd route st = Some st1
    ∧ diagnostics bd k st1 = Some line
    ∧ match how with
      | Break => converged line = true ∧ st' = print line st1
      | Next => converged line = false
                ∧ grow bd (print line st1) = Some st'
      end.
Proof.
  unfold outer_step. intros H.
  destruct (inner_sweep bd route st) as [st1|] eqn:Hs; [|done].
  cbn [mbind option_bind] in H.
  destruct (diagnostics bd k st1) as [line|] eqn:Hd; [|done].
  cbn [mbind option_bind] in H.
  exists st1, line. split; [done|]. split; [done|].
  destruct (converged line) eqn:Hc.
  - inversion H; subst. by split.
  - destruct (grow bd (print line st1)) as [s2|] eqn:Hg; [|done].
    inversion H; subst. by split.
Qed.

Lemma init_loop_Some (par : BCDParams) (st : Loop) :
  init_loop bd par = Some st →
  ∃ A1 vAx vcx,
    bd_A bd !! 0%nat = Some A1
    ∧ mapM (fun Ak => mat_vec Ak (ones (snd (shape A1)))) (bd_A bd)
      = Some vAx
    ∧ (length (bd_c bd) <= length (bd_A bd))%nat
    ∧ mapM (fun cidx => dot cidx (ones (snd (shape A1)))) (bd_c bd)
      = Some vcx
    ∧ st = {| xk := map (fun _ => ones (snd (shape A1))) (bd_A bd);
              _vAx := vAx;
              _vcx := vcx;
              _eps_fix_point := map (fun _ => 0%float) (bd_A bd);
              rho := rho0;
              tau := tau0;
              lbd := map (PrimFloat.mul rho0) (ones (fst (shape A1)));
              it := None;
              bcdpar := par;
              stdout := [] |}.
Proof.
  unfold init_loop.
  destruct (bd_A bd !! 0%nat) as [A1|] eqn:HA; [|done]. cbn.
  destruct (mapM _ (bd_A bd)) as [vAx|] eqn:HvAx; [|done]. cbn.
  destruct (decide _) as [Hc|]; [|done].
  destruct (mapM _ (bd_c bd)) as [vcx|] eqn:Hvcx; [|done]. cbn.
  intros [= <-]. by exists A1, vAx, vcx.
Qed.
End OuterFacts.

(** ** Invariants of the run *)

Section RunInvariant.
Variables (bd : BlockData) (route : Route) (par : BCDParams).
Variable P : nat → Loop → Prop.
Hypothesis P_init : ∀ s, init_loop bd par = Some s → P 0%nat s.
Hypothesis P_it : ∀ k i s,
  (i < Z.to_nat (linmax (bcdpar s)))%nat → P k s → P k (with_it i s).
Hypothesis P_block : ∀ k idx s s',
  (idx < nblock bd)%nat → P k s →
  block_update bd route idx s = Some s' → P k s'.
Hypothesis P_step : ∀ k s line s',
  P k s → diagnostics bd k s = Some line → converged line = false →
  grow bd (print line s) = Some s' → P (S k) s'.

Lemma pass_keeps (k i : nat) (s s' : Loop) :
  (i < Z.to_nat (linmax (bcdpar s)))%nat → P k s →
  pass bd route i s = Some s' → P k s'.
Proof.
  intros Hi Hs. unfold pass. intros H.
  destruct (for_range _ _ _ _) as [[how s1]|] eqn:Hrun; [|done].
  cbn in H. inversion H; subst s1. clear H.
  assert (Hstep : ∀ j s0 s1,
            ((j <= nblock bd)%nat → P k s0) →
            block_step bd route j s0 = Some (Next, s1) →
            ((S j <= nblock bd)%nat → P k s1)).
  { intros j s0 s1 H0 Hb Hj. unfold block_step in Hb.
    destruct (block_update bd route j s0) as [s2|] eqn:Hu; [|done].
    cbn in Hb. inversion Hb; subst s2.
    apply (P_block k j s0); [lia|apply H0; lia|done]. }
  assert (Hinit : (0 <= nblock bd)%nat → P k (with_it i s)) by (intros _; auto).
  pose proof (for_range_inv _ _ Hstep _ _ _ _ _ Hinit Hrun) as Hinv.
  destruct how; [apply Hinv; lia|].
  destruct Hinv as (q & s0 & _ & _ & Hb). unfold block_step in Hb.
  destruct (block_update _ _ _ _); cbn in Hb; done.
Qed.

Lemma passes_keeps (k p i : nat) (s s' : Loop) :
  (i + p <= Z.to_nat (linmax (bcdpar s)))%nat → P k s →
  passes bd route i p s = Some s' → P k s'.
Proof.
  revert i s. induction p as [|p IH]; intros i s Hle Hs H; cbn in H.
  - by inversion H; subst.
  - destruct (pass bd route i s) as [s1|] eqn:Hp; [|done]. cbn in H.
    destruct (pass_facts _ _ _ _ _ Hp) as ((_&_&_&Hpar&_) & _).
    apply (IH (S i) s1); [rewrite Hpar; lia| |done].
    apply (pass_keeps k i s); [lia|done|done].
Qed.

Lemma inner_sweep_keeps (k : nat) (s s' : Loop) :
  P k s → inner_sweep bd route s = Some s' → P k s'.
Proof.
  intros Hs. unfold inner_sweep. intros H.
  destruct (for_range _ _ _ _) as [[how s1]|] eqn:Hrun; [|done].
  cbn in H. inversion H; subst s1. clear H.
  destruct (sweep_loop_spec _ _ _ _ _ _ _ Hrun) as (p & Hle & Hps & _).
  apply (passes_keeps k p 0 s); [lia|done|done].
Qed.

(** How a run that returns has ended: after [itermax] completed turns
    (none, or the last one with its sweep, its line and its continuation
    step), or by [break] on the line printed in some turn [k] after its
    sweep. *)
Lemma optimize_run_last (how : terminal) (st : Loop) :
  optimize_run bd route par = Some (how, st) →
  match how with
  | ITERATION_LIMIT =>
      P (Z.to_nat (itermax par)) st
      ∧ (Z.to_nat (itermax par) = 0%nat ∧ init_loop bd par = Some st
         ∨ ∃ k s line,
             Z.to_nat (itermax par) = S k ∧ P k s
             ∧ diagnostics bd k s = Some line
             ∧ converged line = false
             ∧ grow bd (print line s) = Some st)
  | CONVERGED =>
      ∃ k s line,
        (k < Z.to_nat (itermax par))%nat ∧ P k s
        ∧ diagnostics bd k s = Some line
        ∧ converged line = true ∧ st = print line s
  end.
Proof.
  unfold optimize_run. intros H.
  destruct (init_loop bd par) as [st0|] eqn:Hinit; [|done].
  cbn [mbind option_bind] in H.
  assert (Hpar : bcdpar st0 = par).
  { apply init_loop_Some in Hinit as (A1 & vAx & vcx & _ & _ & _ & _ & ->).
    done. }
  rewrite Hpar in H.
  destruct (for_range _ _ _ _) as [[c s1]|] eqn:Hrun; [|done].
  cbn in H. inversion H; subst how s1. clear H.
  set (Inv := fun (k : nat) (s : Loop) =>
         P k s
         ∧ (k = 0%nat ∧ Some st0 = Some s
            ∨ ∃ k' s1 line,
                k = S k' ∧ P k' s1 ∧ diagnostics bd k' s1 = Some line
                ∧ converged line = false
                ∧ grow bd (print line s1) = Some s)).
  assert (Hstep : ∀ k s s', Inv k s →
            outer_step bd route k s = Some (Next, s') → Inv (S k) s').
  { intros k s s' [Hs _] Hb.
    apply outer_step_Some in Hb as (st1 & line & Hsw & Hd & Hnc & Hg).
    pose proof (inner_sweep_keeps _ _ _ Hs Hsw) as H1.
    split; [by eapply P_step|].
    right. exists k, st1, line. by split_and!. }
  assert (H0 : Inv 0%nat st0) by (split; [by apply P_init|by left]).
  pose proof (for_range_inv _ _ Hstep _ _ _ _ _ H0 Hrun) as Hinv.
  destruct c.
  - destruct Hinv as [Hs Hlast]. cbn in Hs, Hlast. split; [done|].
    destruct Hlast as [[Hk Heq]|Hlast]; [left|right; exact Hlast].
    split; [done|]. by inversion Heq; subst.
  - destruct Hinv as (p & s0 & Hp & [Hs0 _] & Hb).
    apply outer_step_Some in Hb as (st1 & line & Hsw & Hd & Hconv & ->).
    exists (0 + p)%nat, st1, line. split_and!; try done.
    by eapply inner_sweep_keeps.
Qed.
End RunInvariant.

(** ** The invariant of the outer loop *)

Section RunInv.
Variables (bd : BlockData) (route : Route) (par : BCDParams).

Lemma run_inv_init (s : Loop) :
  init_loop bd par = Some s → run_inv bd route par 0 s.
Proof.
  intros H.
  apply init_loop_Some in H as (A1 & vAx & vcx & HA & HvAx & Hc & Hvcx & ->).
  apply mapM_Some in HvAx. apply mapM_Some in Hvcx.
  constructor; cbn; try done.
  - unfold nblock. by rewrite length_map.
  - unfold nblock. by rewrite length_map.
  - unfold coherent. cbn. clear -HvAx.
    induction HvAx as [|Ak v l k Hv _ IH]; cbn; [done|]. by constructor.
  - unfold cost_coherent. cbn. clear -Hvcx Hc. revert Hc.
    generalize (bd_A bd). intros la.
    revert la. induction Hvcx as [|ci v l k Hv _ IH]; intros la Hc; cbn; [done|].
    destruct la as [|Ak la]; cbn in Hc |- *; [lia|].
    constructor; [done|]. apply IH. lia.
  - apply Forall_fmap, Forall_replicate. reflexivity.
  - lia.
  - intros _. apply Forall_fmap, Forall_true. intros ?. apply binary_ones.
Qed.

Lemma run_inv_it (k i : nat) (s : Loop) :
  (i < Z.to_nat (linmax (bcdpar s)))%nat →
  run_inv bd route par k s → run_inv bd route par k (with_it i s).
Proof.
  intros Hi [Hlen Heps Hcoh Hcost Hrho Htau Hlbd Hiter Hpar Hit Hlines Hlog Hbin].
  constructor; cbn; try done.
  intros j [= <-]. apply (f_equal linmax) in Hpar. cbn in Hpar.
  by rewrite <- Hpar.
Qed.

Lemma run_inv_block (k idx : nat) (s s' : Loop) :
  (idx < nblock bd)%nat → run_inv bd route par k s →
  block_update bd route idx s = Some s' → run_inv bd route par k s'.
Proof.
  intros _ [Hlen Heps Hcoh Hcost Hrho Htau Hlbd Hiter Hpar Hit Hlines Hlog Hbin] Hu.
  destruct (block_update_frame _ _ _ _ _ Hu)
    as [(Frho & Ftau & Flbd & Fpar & Fout & Flx & Fle) Fit].
  constructor; rewrite ?Frho, ?Ftau, ?Flbd, ?Fpar, ?Fout, ?Flx, ?Fle, ?Fit;
    try done.
  - by eapply block_update_coherent.
  - by eapply block_update_cost_coherent.
  - intros Hor. eapply block_update_binary; [done|by apply Hbin|done].
Qed.

Lemma run_inv_step (k : nat) (s : Loop) (line : LogLine) (s' : Loop) :
  run_inv bd route par k s → diagnostics bd k s = Some line →
  converged line = false → grow bd (print line s) = Some s' →
  run_inv bd route par (S k) s'.
Proof.
  intros [Hlen Heps Hcoh Hcost Hrho Htau Hlbd Hiter Hpar Hit Hlines Hlog Hbin] Hd Hnc Hg.
  apply grow_Some in Hg as (r & t & l' & _ & _ & Hl & ->).
  apply diagnostics_Some in Hd as (e & i & _ & Hi & _ & Hline).
  constructor; cbn; try done.
  - by rewrite Hrho.
  - by eapply nonnegative_not_neg.
  - lia.
  - rewrite length_app. cbn. lia.
  - intros j l Hj.
    destruct (decide (j < k)%nat) as [Hlt|Hge].
    + rewrite lookup_app_l in Hj by lia. by apply Hlog.
    + rewrite lookup_app_r in Hj by lia.
      rewrite Hlines in Hj.
      destruct (j - k)%nat as [|q] eqn:Hq; [|destruct q; done].
      cbn in Hj. inversion Hj; subst l. assert (j = k) as -> by lia.
      specialize (Hit i Hi). rewrite Hline in *. cbn.
      split_and!; try done; lia.
Qed.

(** The final state of a run that returns. *)
Lemma optimize_run_inv (how : terminal) (st : Loop) :
  optimize_run bd route par = Some (how, st) →
  match how with
  | ITERATION_LIMIT =>
      run_inv bd route par (Z.to_nat (itermax par)) st
      ∧ (Z.to_nat (itermax par) = 0%nat ∧ init_loop bd par = Some st
         ∨ ∃ k s line,
             Z.to_nat (itermax par) = S k ∧ run_inv bd route par k s
             ∧ diagnostics bd k s = Some line
             ∧ converged line = false
             ∧ grow bd (print line s) = Some st)
  | CONVERGED =>
      ∃ k s line,
        (k < Z.to_nat (itermax par))%nat ∧ run_inv bd route par k s
        ∧ diagnostics bd k s = Some line
        ∧ converged line = true ∧ st = print line s
  end.
Proof.
  apply (optimize_run_last bd route par (run_inv bd route par)).
  - apply run_inv_init.
  - apply run_inv_it.
  - apply run_inv_block.
  - apply run_inv_step.
Qed.
End RunInv.

(** ** The penalty sequence *)

Lemma float_neq (x y : float) : PrimFloat.Leibniz.eqb x y = false → x ≠ y.
Proof.
  intros H Heq. apply FloatAxioms.Leibniz.eqb_spec in Heq. congruence.
Qed.

Lemma rho_seq_overflow (j : nat) : rho_seq (j + 1031) = infinity.
Proof.
  induction j as [|j IH]; [vm_compute; reflexivity|].
  cbn [Nat.add rho_seq]. rewrite IH. reflexivity.
Qed.

Lemma rho_seq_table :
  forallb (fun j => (rho_seq j <? rho_seq (S j))%float
                    && (0 <? rho_seq j)%float
                    && (rho_seq j <? infinity)%float)
    (seq 0 1031) = true.
Proof. vm_compute. reflexivity. Qed.

Lemma rho_seq_strict (j : nat) :
  (j < 1031)%nat →
  (rho_seq j <? rho_seq (S j))%float = true
  ∧ (0 <? rho_seq j)%float = true
  ∧ (rho_seq j <? infinity)%float = true.
Proof.
  intros Hj. pose proof rho_seq_table as H.
  rewrite forallb_forall in H. specialize (H j).
  rewrite !andb_true_iff in H.
  destruct H as [[H1 H2] H3]; [apply in_seq; lia|done].
Qed.

Lemma rho_seq_mono (j : nat) : (rho_seq j <=? rho_seq (S j))%float = true.
Proof.
  destruct (decide (j < 1031)%nat) as [Hlt|Hge].
  - destruct (rho_seq_strict j Hlt) as (H & _).
    rewrite FloatAxioms.ltb_spec in H. rewrite FloatAxioms.leb_spec.
    unfold SFltb in H. unfold SFleb.
    by destruct (SFcompare _ _) as [[]|].
  - replace j with ((j - 1031) + 1031)%nat by lia.
    change (S (j - 1031 + 1031)) with (S (j - 1031) + 1031)%nat.
    by rewrite !rho_seq_overflow.
Qed.

Lemma tau_table :
  forallb (fun j => negb (PrimFloat.Leibniz.eqb tau0
                            (1 / (Anorm * Anorm * rho_seq j))%float))
    (seq 1 1031) = true.
Proof. vm_compute. reflexivity. Qed.

(** [tau] is what the formula gives for the current [rho] in outer
    iteration 0 only. *)
Lemma tau_rederived (j : nat) :
  tau0 = (1 / (Anorm * Anorm * rho_seq j))%float ↔ j = 0%nat.
Proof.
  split; [|by intros ->].
  destruct j as [|j]; [done|]. intros Heq. exfalso. revert Heq.
  apply float_neq.
  destruct (decide (S j <= 1031)%nat) as [Hle|Hgt].
  - pose proof tau_table as H. rewrite forallb_forall in H.
    apply negb_true_iff, H, in_seq. lia.
  - replace (S j) with ((S j - 1031) + 1031)%nat by lia.
    rewrite rho_seq_overflow. reflexivity.
Qed.

(** ** The final state of a run *)

Section RunPost.
Variables (bd : BlockData) (route : Route) (par : BCDParams).

(** The lines of a state that has just printed [line] in turn [k]. *)
Lemma lines_after_print (k : nat) (s : Loop) (line l : LogLine) (j : nat) :
  run_inv bd route par k s → diagnostics bd k s = Some line →
  (stdout s ++ [line]) !! j = Some l →
  log_k l = j ∧ log_rho l = rho_seq j ∧ log_tau l = tau0
  ∧ (1 <= log_iter l <= Z.to_nat (linmax par))%nat
  ∧ ((j < k)%nat ∧ converged l = false ∨ j = k ∧ l = line).
Proof.
  intros [Hlen Heps Hcoh Hcost Hrho Htau Hlbd Hiter Hpar Hit Hlines Hlog Hbin]
    Hd Hj.
  destruct (decide (j < k)%nat) as [Hlt|Hge].
  - rewrite lookup_app_l in Hj by lia.
    destruct (Hlog j l Hj) as (? & ? & ? & ? & ?).
    do 4 (split; [done|]). by left.
  - rewrite lookup_app_r in Hj by lia. rewrite Hlines in Hj.
    destruct (j - k)%nat as [|q] eqn:Hq; [|destruct q; done].
    cbn in Hj. inversion Hj; subst l. assert (j = k) as -> by lia.
    apply diagnostics_Some in Hd as (e & i & _ & Hi & _ & ->).
    specialize (Hit i Hi). cbn.
    do 3 (split; [done|]). split; [lia|]. by right.
Qed.

Lemma run_final (how : terminal) (st : Loop) :
  optimize_run bd route par = Some (how, st) → run_post bd route par how st.
Proof.
  intros Hrun. pose proof (optimize_run_inv bd route par how st Hrun) as H.
  destruct how.
  - destruct H as (k & s & line & Hk & Hinv & Hd & Hconv & ->).
    pose proof Hinv
      as [Hlen Heps Hcoh Hcost Hrho Htau Hlbd Hiter Hpar Hit Hlines Hlog Hbin].
    assert (Hsteps : steps CONVERGED (print line s) = k).
    { cbn. rewrite length_app, Hlines. cbn. lia. }
    constructor; rewrite ?Hsteps; try done.
    + cbn. rewrite length_app. cbn. lia.
    + cbn. rewrite length_app. cbn. lia.
    + intros j l Hj. cbn in Hj.
      destruct (lines_after_print _ _ _ _ _ Hinv Hd Hj)
        as (? & ? & ? & ? & Hcase).
      do 4 (split; [done|]). cbn. rewrite length_app, Hlines. cbn.
      destruct Hcase as [[Hlt Hc]|[-> ->]].
      * rewrite Hc. split; [done|]. intros [_ ?]. lia.
      * rewrite Hconv. split; [|done]. intros _. split; [done|lia].
    + intros l Hl. cbn in Hl. rewrite last_snoc in Hl. inversion Hl; subst l.
      apply diagnostics_Some in Hd as (e & i & He & _ & _ & ->). by cbn.
  - destruct H as [Hinv Hlast].
    pose proof Hinv
      as [Hlen Heps Hcoh Hcost Hrho Htau Hlbd Hiter Hpar Hit Hlines Hlog Hbin].
    assert (Hsteps : steps ITERATION_LIMIT st = Z.to_nat (itermax par))
      by done.
    constructor; rewrite ?Hsteps; try done.
    + lia.
    + intros j l Hj. destruct (Hlog j l Hj) as (? & ? & ? & Hc & ?).
      do 4 (split; [done|]). rewrite Hc. split; [done|]. by intros [? _].
    + intros l Hl.
      destruct Hlast as [[Hn _]|(k & s & line & Hn & Hs & Hd & Hnc & Hg)].
      { rewrite Hn in Hlines. apply nil_length_inv in Hlines.
        by rewrite Hlines in Hl. }
      apply grow_Some in Hg as (r & t & l' & _ & _ & _ & ->).
      cbn in Hl. rewrite last_snoc in Hl. inversion Hl; subst l.
      apply diagnostics_Some in Hd as (e & i & He & _ & _ & ->). by cbn.
Qed.
End RunPost.

(** ** The claims about [optimize] *)

(** C1, as the code has it.  Whenever [optimize] returns, what it returns
    is the final iterate alone: one vector per block, with entries 0 or 1
    when the oracle answers with such vectors.  The histories [lb_arr],
    [ub_arr] and the [gap] of the store are left as they were; the
    store's [iter] has grown by the number of continuation steps, and
    nothing else in it has changed. *)
Theorem optimize_returns_iterate (bd : BlockData) (route : Route)
    (par : BCDParams) (out : list vec) :
  optimize bd route par = Some out →
  ∃ how st,
    optimize_run bd route par = Some (how, st)
    ∧ out = xk st
    ∧ length out = length (bd_A bd)
    ∧ (binary_oracle route → Forall binary out)
    ∧ lb_arr (bcdpar st) = lb_arr par
    ∧ ub_arr (bcdpar st) = ub_arr par
    ∧ gap (bcdpar st) = gap par
    ∧ set_iter 0 (bcdpar st) = set_iter 0 par
    ∧ iter (bcdpar st)
      = (iter par + Z.of_nat (length (stdout st))
         - match how with CONVERGED => 1 | ITERATION_LIMIT => 0 end)%Z.
Proof.
  unfold optimize. intros H.
  destruct (optimize_run bd route par) as [[how st]|] eqn:Hrun; [|done].
  cbn in H. inversion H; subst out. clear H.
  pose proof (run_final bd route par how st Hrun) as Hpost.
  pose proof (post_par _ _ _ _ _ Hpost) as Hpar.
  exists how, st. split; [done|]. split; [done|].
  split; [apply (post_len _ _ _ _ _ Hpost)|].
  split; [apply (post_bin _ _ _ _ _ Hpost)|].
  split; [by apply (f_equal lb_arr) in Hpar|].
  split; [by apply (f_equal ub_arr) in Hpar|].
  split; [by apply (f_equal gap) in Hpar|].
  split; [done|].
  rewrite (post_iter _ _ _ _ _ Hpost).
  destruct how; cbn; [|lia].
  pose proof (post_break _ _ _ _ _ Hpost eq_refl). lia.
Qed.

Lemma optimize_returns_iterate_witness :
  ∃ how st,
    optimize_run (one_block 1) select_all (with_caps 1 1) = Some (how, st)
    ∧ [[1%float]] = xk st
    ∧ length [[1%float]] = length (bd_A (one_block 1)).
Proof.
  destruct (optimize_returns_iterate (one_block 1) select_all (with_caps 1 1)
              [[1%float]])
    as (how & st & Hrun & Hout & Hlen & _).
  - vm_compute. reflexivity.
  - by exists how, st.
Defined.

(** C1, as stated, fails: a run that converged and a run that hit the
    iteration limit return the same value, so the value returned carries
    no terminal state tag. *)
Lemma optimize_result_has_no_tag :
  optimize (one_block 1) select_all (with_caps 1 1) = Some [[1%float]]
  ∧ fst <$> optimize_run (one_block 1) select_all (with_caps 1 1)
    = Some CONVERGED
  ∧ optimize (one_block 0) select_all (with_caps 1 1) = Some [[1%float]]
  ∧ fst <$> optimize_run (one_block 0) select_all (with_caps 1 1)
    = Some ITERATION_LIMIT.
Proof. split_and!; vm_compute; reflexivity. Qed.

(** C2, on an input where the code departs from it.  With the two
    linking rows [0 * x <= 1] and [x <= 0.5] the first outer iteration
    keeps [x = 1], whose residual [A @ x - b] is [(-1, 0.5)]: the second
    row is violated by 0.5 and the norm of the positive part is 0.5.
    [_nonnegative] takes the integer type from its first value and
    truncates 0.5 to 0, so the feasibility residual printed is 0 and the
    outer loop leaves by [break]. *)
Theorem exit_with_violated_row :
  (fun r => (fst r, xk (snd r), log_eps_pfeas <$> last (stdout (snd r)),
             residual two_rows (snd r)))
    <$> optimize_run two_rows select_all (with_caps 1 1)
  = Some (CONVERGED, [[1%float]], Some 0%float,
          Some [(-1)%float; 0.5%float])
  ∧ _nonnegative [(-1)%float; 0.5%float] = Some [0%float; 0%float]
  ∧ norm (map py_max0 [(-1)%float; 0.5%float]) = 0.5%float.
Proof. split_and!; vm_compute; reflexivity. Qed.




Lemma nonnegative_ge_0_or_nan (v w : vec) :
  _nonnegative v = Some w →
  Forall (fun x => not_neg x
                   ∧ (is_nan x = false → (0 <=? x)%float = true)) w.
Proof.
  intros H. apply nonnegative_not_neg in H.
  eapply Forall_impl; [exact H|]. intros x Hx. split; [done|].
  by apply not_neg_ge_0.
Qed.

(** C4, as the code has it.  On entry to the outer loop every component
    of the multiplier is [>= 0].  After a multiplier update, from any
    state whatever, no component is negative: each one is [>= 0] or NaN.
    The same holds in the final state of every run that returns. *)
Theorem lambda_nonnegative :
  (∀ bd par st, init_loop bd par = Some st →
     Forall (fun x => (0 <=? x)%float = true) (lbd st))
  ∧ (∀ bd st st', grow bd st = Some st' →
       Forall (fun x => not_neg x
                        ∧ (is_nan x = false → (0 <=? x)%float = true))
         (lbd st'))
  ∧ (∀ bd route par how st, optimize_run bd route par = Some (how, st) →
       Forall (fun x => not_neg x
                        ∧ (is_nan x = false → (0 <=? x)%float = true))
         (lbd st)).
Proof.
  split_and!.
  - intros bd par st H.
    apply init_loop_Some in H as (A1 & vAx & vcx & _ & _ & _ & _ & ->).
    cbn. apply Forall_fmap, Forall_replicate. reflexivity.
  - intros bd st st' H.
    apply grow_Some in H as (r & t & l' & _ & _ & Hl & ->). cbn.
    by eapply nonnegative_ge_0_or_nan.
  - intros bd route par how st H.
    pose proof (post_lbd _ _ _ _ _ (run_final _ _ _ _ _ H)) as Hl.
    eapply Forall_impl; [exact Hl|]. intros x Hx. split; [done|].
    by apply not_neg_ge_0.
Qed.

Lemma lambda_nonnegative_witness :
  Forall (fun x => (0 <=? x)%float = true) [0.01%float]
  ∧ Forall (fun x => not_neg x
                     ∧ (is_nan x = false → (0 <=? x)%float = true))
      [0.03%float].
Proof.
  destruct lambda_nonnegative as (Hinit & Hgrow & _). split.
  - apply (Hinit (one_block 0) (with_caps 1 1)
             (mkLoop [[1%float]] [[1%float]] [0%float] [0%float]
                rho0 tau0 [0.01%float] None (with_caps 1 1) [])).
    vm_compute. reflexivity.
  - apply (Hgrow (one_block 0)
             (mkLoop [[1%float]] [[1%float]] [0%float] [0%float]
                rho0 tau0 [0.01%float] None (with_caps 1 1) [])
             (mkLoop [[1%float]] [[1%float]] [0%float] [0%float]
                0.02%float tau0 [0.03%float] None
                (set_iter 1 (with_caps 1 1)) [])).
    vm_compute. reflexivity.
Defined.

(** C4, as stated, fails.  After 1031 continuation steps [rho] is
    infinite; on the row whose residual is 0 the update computes
    [0 * inf + lbd], which is NaN, and [max(nan, 0)] is NaN. *)
Lemma lambda_nan_after_overflow :
  (fun r => (rho (snd r), lbd (snd r)))
    <$> optimize_run idle_rows select_all (with_caps 1031 1)
  = Some (infinity, [infinity; nan])
  ∧ (0 <=? nan)%float = false.
Proof. split; vm_compute; reflexivity. Qed.

(** C5, as the code has it.  The continuation step doubles [rho] in
    binary64.  The value after [g] steps never decreases; it strictly
    increases for the first 1031 steps and is infinite, hence constant,
    from then on.  In a run that returns, line [j] shows the value after
    [j] steps, and the final [rho] is that of the last line when the run
    left by [break] and its double otherwise. *)
Theorem rho_monotone :
  (∀ g, (rho_seq g <=? rho_seq (S g))%float = true)
  ∧ (∀ g, (g < 1031)%nat → (rho_seq g <? rho_seq (S g))%float = true)
  ∧ (∀ g, (1031 <= g)%nat → rho_seq g = infinity)
  ∧ (∀ bd st st', grow bd st = Some st' → rho st' = (rho st * sigma)%float)
  ∧ (∀ bd route par how st, optimize_run bd route par = Some (how, st) →
       (∀ j line, stdout st !! j = Some line → log_rho line = rho_seq j)
       ∧ rho st = rho_seq (steps how st)
       ∧ (∀ l, last (stdout st) = Some l →
            (log_rho l <=? rho st)%float = true
            ∧ (how = CONVERGED → rho st = log_rho l)
            ∧ (how = ITERATION_LIMIT → rho st = (log_rho l * sigma)%float))).
Proof.
  split; [apply rho_seq_mono|].
  split; [intros g Hg; apply (rho_seq_strict g Hg)|].
  split.
  { intros g Hg. replace g with ((g - 1031) + 1031)%nat by lia.
    apply rho_seq_overflow. }
  split.
  { intros bd st st' H. by apply grow_Some in H as (r & t & l' & _ & _ & _ & ->). }
  intros bd route par how st Hrun.
  pose proof (run_final bd route par how st Hrun) as Hpost.
  pose proof (post_rho _ _ _ _ _ Hpost) as Hrho.
  split; [intros j line Hj; apply (post_log _ _ _ _ _ Hpost j line Hj)|].
  split; [done|].
  intros l Hl. rewrite last_lookup in Hl.
  destruct (post_log _ _ _ _ _ Hpost _ _ Hl) as (_ & Hlr & _).
  apply lookup_lt_Some in Hl as Hlt.
  rewrite Hrho, Hlr. unfold steps.
  destruct (length (stdout st)) as [|n]; [lia|]. cbn [pred].
  destruct how; cbn [rho_seq].
  - split; [|done]. 
    pose proof (rho_seq_mono n) as Hm.
    rewrite FloatAxioms.leb_spec in Hm |- *. unfold SFleb in *.
    destruct (decide (n < 1031)%nat) as [Hn|Hn].
    + destruct (rho_seq_strict n Hn) as (_ & Hp & _).
      rewrite FloatAxioms.ltb_spec in Hp. unfold SFltb in Hp.
      rewrite Prim2SF_zero in Hp.
      destruct (Prim2SF (rho_seq n)) as [[]|[]| |[] m e]; try done.
      cbn. by rewrite Z.compare_refl, Pos.compare_cont_refl.
    + replace n with ((n - 1031) + 1031)%nat by lia.
      by rewrite rho_seq_overflow.
  - split; [apply rho_seq_mono|]. split; [done|done].
Qed.

Lemma rho_monotone_witness :
  (rho_seq 3 <=? rho_seq 4)%float = true
  ∧ (rho_seq 3 <? rho_seq 4)%float = true
  ∧ rho_seq 1031 = infinity.
Proof.
  destruct rho_monotone as (Hmono & Hstrict & Hinf & _).
  split; [apply (Hmono 3%nat)|].
  split; [apply (Hstrict 3%nat); lia|apply (Hinf 1031%nat); lia].
Defined.

(** C5, as stated, fails.  In a run of 1033 outer iterations that never
    meets the exit test, the continuation step runs between the lines
    of iterations 1031 and 1032, and both lines show the same [rho]. *)
Lemma rho_stops_growing :
  (fun r => (fst r, log_rho <$> stdout (snd r) !! 1031%nat,
             log_rho <$> stdout (snd r) !! 1032%nat, rho (snd r)))
    <$> optimize_run idle_rows select_all (with_caps 1033 1)
  = Some (ITERATION_LIMIT, Some infinity, Some infinity, infinity).
Proof. vm_compute. reflexivity. Qed.

(** C6, as the code has it.  [tau] is computed once, from the seed
    [rho = 1e-2]: it is [1 / (Anorm^2 * 1e-2)] in the final state and in
    every printed line, while the [rho] of line [j] is the seed doubled
    [j] times; so [tau = 1 / (Anorm^2 * rho)] holds in outer iteration 0
    only. *)
Theorem tau_fixed (bd : BlockData) (route : Route) (par : BCDParams)
    (how : terminal) (st : Loop) :
  optimize_run bd route par = Some (how, st) →
  tau st = (1 / (Anorm * Anorm * 1e-2))%float
  ∧ ∀ j line, stdout st !! j = Some line →
      log_tau line = (1 / (Anorm * Anorm * 1e-2))%float
      ∧ log_rho line = rho_seq j
      ∧ (log_tau line = (1 / (Anorm * Anorm * log_rho line))%float
         ↔ j = 0%nat).
Proof.
  intros Hrun. pose proof (run_final bd route par how st Hrun) as Hpost.
  split; [apply (post_tau _ _ _ _ _ Hpost)|].
  intros j line Hj.
  destruct (post_log _ _ _ _ _ Hpost _ _ Hj) as (_ & Hrho & Htau & _).
  split; [done|]. split; [done|]. rewrite Htau, Hrho. apply tau_rederived.
Qed.

Lemma tau_fixed_witness :
  ∃ how st,
    optimize_run (one_block 0) select_all (with_caps 2 1) = Some (how, st)
    ∧ tau st = (1 / (Anorm * Anorm * 1e-2))%float.
Proof.
  destruct (optimize_run (one_block 0) select_all (with_caps 2 1))
    as [[how st]|] eqn:Hrun; [|vm_compute in Hrun; discriminate].
  exists how, st. split; [done|].
  apply (tau_fixed (one_block 0) select_all (with_caps 2 1) how st Hrun).
Defined.

(** C6, as stated, fails: in the second outer iteration of the
    infeasible one-block instance [rho] is 0.02 and [tau] is still 0.25,
    not [1 / (400 * 0.02) = 0.125]. *)
Lemma tau_not_rederived :
  ∃ how st line,
    optimize_run (one_block 0) select_all (with_caps 2 1) = Some (how, st)
    ∧ stdout st !! 1%nat = Some line
    ∧ log_rho line = 0.02%float ∧ log_tau line = 0.25%float
    ∧ log_tau line ≠ (1 / (Anorm * Anorm * log_rho line))%float.
Proof.
  destruct (optimize_run (one_block 0) select_all (with_caps 2 1))
    as [[how st]|] eqn:Hrun; [|vm_compute in Hrun; discriminate].
  assert (Hlen : (fun r => length (stdout (snd r)))
                   <$> optimize_run (one_block 0) select_all (with_caps 2 1)
                 = Some 2%nat) by (vm_compute; reflexivity).
  rewrite Hrun in Hlen. cbn in Hlen. inversion Hlen as [Hlen'].
  destruct (lookup_lt_is_Some_2 (stdout st) 1) as [line Hl]; [lia|].
  pose proof (run_final _ _ _ _ _ Hrun) as Hpost.
  destruct (post_log _ _ _ _ _ Hpost _ _ Hl) as (_ & Hrho & Htau & _).
  exists how, st, line. split; [done|]. split; [done|].
  rewrite Hrho, Htau. split; [reflexivity|]. split; [reflexivity|].
  intros Heq. by apply tau_rederived in Heq.
Qed.




(** * Further properties of the state store *)

(** [update_gap] raises exactly when one of the histories is empty; when
    it returns, [gap] is the only attribute it has assigned. *)
Theorem update_gap_raises (s : BCDParams) :
  (update_gap s = None ↔ ub_arr s = [] ∨ lb_arr s = [])
  ∧ (∀ s', update_gap s = Some s' → s' = set_gap (gap s') s).
Proof.
  unfold update_gap. split.
  - destruct (ub_arr s) as [|u us], (lb_arr s) as [|l ls]; cbn;
      split; try done; try (intros _; by left); try (intros _; by right).
    intros [?|?]; done.
  - intros s'. destruct (py_min (ub_arr s)) as [mn|]; [|done].
    destruct (py_max (lb_arr s)) as [mx|]; [|done]. cbn. by intros [= <-].
Qed.



Lemma update_bound_lb (v : R) (s : BCDParams) :
  lb (update_bound v s) = Rmax (lb s) v
  ∧ lb_arr (update_bound v s) = lb_arr s ++ [v].
Proof.
  unfold update_bound, Rmax.
  destruct (Rge_dec v (lb s)); cbn; destruct (Z_ge_dec _ _); cbn;
    (split; [|done]); destruct (Rle_dec (lb s) v); lra.
Qed.

Lemma update_bound_seq (vs : list R) (s : BCDParams) :
  let s' := foldl (fun s v => update_bound v s) s vs in
  lb s' = foldl Rmax (lb s) vs ∧ lb_arr s' = lb_arr s ++ vs.
Proof.
  revert s. induction vs as [|v vs IH]; intros s; cbn [foldl].
  - by rewrite app_nil_r.
  - destruct (IH (update_bound v s)) as [Hlb Harr].
    destruct (update_bound_lb v s) as [Hl Ha]. cbv zeta in Hlb, Harr |- *.
    rewrite Hlb, Harr, Hl, Ha. by rewrite <- app_assoc.
Qed.

Lemma foldl_Rmax_ge (vs : list R) (x : R) :
  x <= foldl Rmax x vs ∧ Forall (fun v => v <= foldl Rmax x vs) vs.
Proof.
  revert x. induction vs as [|v vs IH]; intros x; cbn; [split; [lra|done]|].
  destruct (IH (Rmax x v)) as [Hx Hall].
  pose proof (Rmax_l x v). pose proof (Rmax_r x v).
  split; [lra|]. constructor; [lra|done].
Qed.

(** Fed any sequence of values, a fresh store records them all in order
    and keeps as best bound the largest of 1e-6 and the values: the best
    bound dominates the whole history and never drops below the seed
    1e-6, even when every recorded value is smaller. *)
Theorem best_bound_dominates (env : environ) (vs : list R) :
  let s := foldl (fun s v => update_bound v s) (init env) vs in
  lb_arr s = vs
  ∧ lb s = foldl Rmax 1e-6 vs
  ∧ 1e-6 <= lb s
  ∧ Forall (fun v => v <= lb s) vs.
Proof.
  destruct (update_bound_seq vs (init env)) as [Hlb Harr].
  cbv zeta in Hlb, Harr |- *. rewrite Hlb, Harr.
  change (lb (init env)) with 1e-6. change (lb_arr (init env)) with (@nil R).
  destruct (foldl_Rmax_ge vs 1e-6). done.
Qed.

Lemma update_bound_stuck_inv (v : R) (s : BCDParams) :
  (0 <= num_stuck s < eps_num_stuck s)%Z → 0 <= kappa s →
  let s' := update_bound v s in
  (0 <= num_stuck s' < eps_num_stuck s')%Z
  ∧ 0 <= kappa s' <= kappa s
  ∧ eps_num_stuck s' = eps_num_stuck s.
Proof.
  intros Hn Hk. unfold update_bound.
  destruct (Rge_dec v (lb s)); cbn; destruct (Z_ge_dec _ _); cbn;
    split_and!; try done; try lia; lra.
Qed.

(** From a store whose stuck counter is below its threshold and whose
    [kappa] is not negative, any sequence of [update_bound] calls keeps
    the counter in [0, threshold), keeps the threshold, and leaves
    [kappa] non-negative and no larger than it was. *)
Theorem stuck_counter_bounded (vs : list R) (s : BCDParams) :
  (0 <= num_stuck s < eps_num_stuck s)%Z → 0 <= kappa s →
  let s' := foldl (fun s v => update_bound v s) s vs in
  (0 <= num_stuck s' < eps_num_stuck s')%Z
  ∧ 0 <= kappa s' <= kappa s
  ∧ eps_num_stuck s' = eps_num_stuck s.
Proof.
  revert s. induction vs as [|v vs IH]; intros s Hn Hk; cbn [foldl].
  - cbv zeta. split_and!; try done; try lia; lra.
  - destruct (update_bound_stuck_inv v s Hn Hk) as (Hn1 & Hk1 & He1).
    destruct (IH (update_bound v s) Hn1 (proj1 Hk1)) as (Hn2 & Hk2 & He2).
    cbv zeta in *. split_and!; try done; try lia; try lra; congruence.
Qed.

Lemma stuck_counter_bounded_witness :
  let s' := foldl (fun s v => update_bound v s) (init ∅) [0; 0; 0; 0] in
  (0 <= num_stuck s' < eps_num_stuck s')%Z
  ∧ 0 <= kappa s' <= kappa (init ∅)
  ∧ eps_num_stuck s' = eps_num_stuck (init ∅).
Proof.
  apply (stuck_counter_bounded [0; 0; 0; 0] (init ∅)); cbn; [lia|lra].
Defined.

(** Recording one more incumbent never makes [update_gap] fail and never
    increases the gap it computes: the lower-bound history is the same
    and the smallest recorded upper bound can only go down. *)
Theorem incumbent_never_widens (ub : R) (s : BCDParams) :
  lb_arr s ≠ [] → ub_arr s ≠ [] →
  ∃ s1 s2,
    update_gap s = Some s1
    ∧ update_gap (update_incumbent ub s) = Some s2
    ∧ gap s2 <= gap s1
    ∧ ub_arr s2 = ub_arr s ++ [ub].
Proof.
  intros Hlb Hub.
  destruct (py_min_spec _ Hub) as (m1 & Hm1 & Hm1_in & Hm1_le).
  destruct (py_max_spec _ Hlb) as (mx & Hmx & Hmx_in & Hmx_le).
  assert (Hub2 : ub_arr s ++ [ub] ≠ []) by (by destruct (ub_arr s)).
  destruct (py_min_spec _ Hub2) as (m2 & Hm2 & Hm2_in & Hm2_le).
  unfold update_gap, update_incumbent. cbn. rewrite Hm1, Hm2, Hmx. cbn.
  eexists _, _. split; [done|]. split; [done|]. cbn. split; [|done].
  assert (Hden : 0 < Rabs mx + 1e-3) by (pose proof (Rabs_pos mx); lra).
  assert (m2 <= m1) by (apply Hm2_le, elem_of_app; by left).
  unfold Rdiv. apply Rmult_le_compat_r; [|lra].
  left. by apply Rinv_0_lt_compat.
Qed.

Lemma incumbent_never_widens_witness :
  ∃ s1 s2,
    update_gap (set_ub_arr [10; 8] (set_lb_arr [1; 2; 1.5] (init ∅)))
    = Some s1
    ∧ update_gap (update_incumbent 7
                    (set_ub_arr [10; 8] (set_lb_arr [1; 2; 1.5] (init ∅))))
      = Some s2
    ∧ gap s2 <= gap s1
    ∧ ub_arr s2 = [10; 8] ++ [7].
Proof.
  apply (incumbent_never_widens 7
           (set_ub_arr [10; 8] (set_lb_arr [1; 2; 1.5] (init ∅)))); done.
Defined.

Lemma BCDParams_eq (a b : BCDParams) :
  kappa a = kappa b → alpha a = alpha b → beta a = beta b →
  gamma a = gamma b → changed a = changed b → num_stuck a = num_stuck b →
  eps_num_stuck a = eps_num_stuck b → iter a = iter b → lb a = lb b →
  lb_arr a = lb_arr b → ub_arr a = ub_arr b → gap a = gap b →
  dual_method a = dual_method b →
  primal_heuristic_method a = primal_heuristic_method b →
  feasible_provider a = feasible_provider b →
  max_number a = max_number b → norms a = norms b →
  multipliers a = multipliers b → itermax a = itermax b →
  linmax a = linmax b → a = b.
Proof. destruct a, b. cbn. intros. by subst. Qed.

(** [reset] is idempotent, and right after it both histories are empty,
    so [update_gap] raises until a bound of each kind has been recorded
    again. *)
Theorem reset_idempotent (env : environ) (s : BCDParams) :
  reset env (reset env s) = reset env s
  ∧ update_gap (reset env s) = None
  ∧ ∀ v u, is_Some (update_gap
                      (update_incumbent u (update_bound v (reset env s)))).
Proof.
  split; [apply BCDParams_eq; cbn; reflexivity|].
  split; [unfold update_gap; cbn; reflexivity|].
  intros v u. unfold update_gap.
  destruct (update_bound_lb v (reset env s)) as [_ Harr].
  change (lb_arr (update_incumbent u (update_bound v (reset env s))))
    with (lb_arr (update_bound v (reset env s))).
  rewrite Harr. cbn [update_incumbent set_ub_arr ub_arr].
  destruct (ub_arr _ ++ [u]) eqn:Eu; [by apply app_eq_nil in Eu as [_ ?]|].
  destruct (lb_arr _ ++ [v]) eqn:Ev; [by apply app_eq_nil in Ev as [_ ?]|].
  cbn [py_min py_max mbind option_bind]. eexists. reflexivity.
Qed.

(** [reset] gives back a freshly constructed store exactly when the seven
    attributes it does not assign ([kappa], [alpha], [beta], [gamma],
    [changed], [itermax], [linmax]) still have their initial values. *)
Theorem reset_restores (env : environ) (s : BCDParams) :
  reset env s = init env
  ↔ kappa s = 0.2 ∧ alpha s = 1 ∧ beta s = 1%Z ∧ gamma s = 0.1
    ∧ changed s = 0%Z ∧ itermax s = 10000%Z ∧ linmax s = 10%Z.
Proof.
  split.
  - intros H.
    pose proof (f_equal kappa H) as H1; cbn in H1.
    pose proof (f_equal alpha H) as H2; cbn in H2.
    pose proof (f_equal beta H) as H3; cbn in H3.
    pose proof (f_equal gamma H) as H4; cbn in H4.
    pose proof (f_equal changed H) as H5; cbn in H5.
    pose proof (f_equal itermax H) as H6; cbn in H6.
    pose proof (f_equal linmax H) as H7; cbn in H7.
    by split_and!.
  - intros (H1 & H2 & H3 & H4 & H5 & H6 & H7).
    apply BCDParams_eq; cbn; try reflexivity; assumption.
Qed.

(** The method names written by the constructor and by [reset] never
    survive: the heuristic named afterwards is the value of the
    environment variable [primal] (nothing when it is unset) and the
    dual method is the value of [dual], or "pdhg_alm" when it is unset;
    [feasible_provider] alone keeps the written "jsp". *)
Theorem environ_overrides_defaults (env : environ) (s : BCDParams) :
  primal_heuristic_method (init env) = env !! "primal"%string
  ∧ primal_heuristic_method (reset env s) = env !! "primal"%string
  ∧ dual_method (init env) = default "pdhg_alm"%string (env !! "dual"%string)
  ∧ dual_method (reset env s)
    = default "pdhg_alm"%string (env !! "dual"%string)
  ∧ feasible_provider (reset env s) = "jsp"%string
  ∧ (primal_heuristic_method (reset env s) = Some "jsp"%string
     → env !! "primal"%string = Some "jsp"%string)
  ∧ (dual_method (reset env s) = "pdhg"%string
     → env !! "dual"%string = Some "pdhg"%string).
Proof.
  split_and!; try done.
  cbn. destruct (env !! "dual"%string) as [d|]; cbn; [by intros ->|done].
Qed.

(** * Further properties of [optimize] *)

(** The exit rule as the code computes it.  A run that returns has
    printed one line per outer iteration, at most [itermax] of them.  It
    left by [break] exactly when some line has a printed feasibility
    residual equal to 0 and a printed fixed-point residual below 1e-4,
    and then that line is the last one; otherwise it has printed
    [itermax] lines. *)
Theorem outer_loop_exit (bd : BlockData) (route : Route) (par : BCDParams)
    (how : terminal) (st : Loop) :
  optimize_run bd route par = Some (how, st) →
  (length (stdout st) <= Z.to_nat (itermax par))%nat
  ∧ (∀ j line, stdout st !! j = Some line →
       log_k line = j
       ∧ (((log_eps_pfeas line =? 0)%float
           && (log_eps_fp line <? 1e-4)%float = true)
          ↔ how = CONVERGED ∧ S j = length (stdout st)))
  ∧ (how = CONVERGED ↔
       ∃ j line, stdout st !! j = Some line
         ∧ (log_eps_pfeas line =? 0)%float
           && (log_eps_fp line <? 1e-4)%float = true)
  ∧ (how = ITERATION_LIMIT →
       length (stdout st) = Z.to_nat (itermax par)).
Proof.
  intros Hrun. pose proof (run_final bd route par how st Hrun) as Hpost.
  assert (Hlog : ∀ j line, stdout st !! j = Some line →
            log_k line = j
            ∧ (converged line = true
               ↔ how = CONVERGED ∧ S j = length (stdout st))).
  { intros j line Hj.
    by destruct (post_log _ _ _ _ _ Hpost j line Hj) as (? & _ & _ & _ & ?). }
  split; [apply (post_cap _ _ _ _ _ Hpost)|]. split; [exact Hlog|].
  split; [|apply (post_limit _ _ _ _ _ Hpost)].
  split.
  - intros Hc. pose proof (post_break _ _ _ _ _ Hpost Hc) as Hpos.
    destruct (lookup_lt_is_Some_2 (stdout st) (pred (length (stdout st))))
      as [line Hl]; [lia|].
    exists (pred (length (stdout st))), line. split; [done|].
    apply (Hlog _ _ Hl). split; [done|lia].
  - intros (j & line & Hj & Hconv). by apply (Hlog j line Hj).
Qed.

Lemma outer_loop_exit_witness :
  ∃ how st,
    optimize_run (one_block 0) select_all (with_caps 3 2) = Some (how, st)
    ∧ (length (stdout st) <= 3)%nat.
Proof.
  destruct (optimize_run (one_block 0) select_all (with_caps 3 2))
    as [[how st]|] eqn:Hrun; [|vm_compute in Hrun; discriminate].
  exists how, st. split; [done|].
  apply (outer_loop_exit (one_block 0) select_all (with_caps 3 2) how st Hrun).
Defined.

Lemma mat_vec_ones (Ak : matrix) (n : nat) :
  is_Some (mat_vec Ak (ones n)) ↔ snd (shape Ak) = n.
Proof.
  unfold mat_vec, ones. rewrite length_replicate.
  destruct (decide _); split; done.
Qed.

Lemma dot_ones (ci : vec) (n : nat) :
  is_Some (dot ci (ones n)) ↔ length ci = n.
Proof.
  unfold dot, ones. rewrite length_replicate.
  destruct (decide _); split; done.
Qed.

(** With a non-positive outer cap the body of the outer loop never
    runs.  The call returns exactly when there is a first block, every
    block has as many columns as the first, there are no more cost rows
    than blocks and every cost row has that many entries; it then
    returns the all-ones seed, one column of [n] ones per block, has
    printed no line and has left the store as it was, whatever the
    oracle and the inner cap. *)
Theorem optimize_zero_cap (bd : BlockData) (route : Route) (par : BCDParams) :
  (itermax par <= 0)%Z →
  (is_Some (optimize bd route par) ↔
     ∃ A1, bd_A bd !! 0%nat = Some A1
       ∧ Forall (fun Ak => snd (shape Ak) = snd (shape A1)) (bd_A bd)
       ∧ (length (bd_c bd) <= length (bd_A bd))%nat
       ∧ Forall (fun ci => length ci = snd (shape A1)) (bd_c bd))
  ∧ (∀ out, optimize bd route par = Some out →
       ∃ A1 st, bd_A bd !! 0%nat = Some A1
         ∧ out = map (fun _ => ones (snd (shape A1))) (bd_A bd)
         ∧ optimize_run bd route par = Some (ITERATION_LIMIT, st)
         ∧ bcdpar st = par ∧ stdout st = []).
Proof.
  intros Hcap.
  assert (Hrun : optimize_run bd route par
                 = (fun s => (ITERATION_LIMIT, s)) <$> init_loop bd par).
  { unfold optimize_run. destruct (init_loop bd par) as [s|] eqn:Hs; [|done].
    apply init_loop_Some in Hs as (A1 & vAx & vcx & _ & _ & _ & _ & ->).
    cbn. replace (Z.to_nat (itermax par)) with 0%nat by lia. done. }
  split.
  - unfold optimize. rewrite Hrun, !fmap_is_Some. unfold init_loop.
    destruct (bd_A bd !! 0%nat) as [A1|] eqn:HA.
    2:{ split; [by intros [? ?]|by intros (? & ? & _)]. }
    cbn [mbind option_bind].
    split.
    + intros [s Hs]. exists A1. split; [done|].
      destruct (mapM _ (bd_A bd)) as [vAx|] eqn:HvAx; [|done].
      cbn [mbind option_bind] in Hs.
      destruct (decide _) as [Hc|]; [|done].
      destruct (mapM _ (bd_c bd)) as [vcx|] eqn:Hvcx; [|done].
      split_and!; [|done|].
      * assert (His : is_Some (mapM (fun Ak => mat_vec Ak (ones (snd (shape A1)))) (bd_A bd))) by (by rewrite HvAx).
        apply mapM_is_Some in His. eapply Forall_impl; [exact His|].
        intros Ak HAk. by apply mat_vec_ones.
      * assert (His : is_Some (mapM (fun ci => dot ci (ones (snd (shape A1)))) (bd_c bd))) by (by rewrite Hvcx).
        apply mapM_is_Some in His. eapply Forall_impl; [exact His|].
        intros ci Hci. by apply dot_ones.
    + intros (A1' & [= <-] & HAll & Hc & Hcl).
      assert (H1 : is_Some (mapM (fun Ak => mat_vec Ak (ones (snd (shape A1)))) (bd_A bd))).
      { apply mapM_is_Some. eapply Forall_impl; [exact HAll|].
        intros Ak HAk. by apply mat_vec_ones. }
      assert (H2 : is_Some (mapM (fun ci => dot ci (ones (snd (shape A1)))) (bd_c bd))).
      { apply mapM_is_Some. eapply Forall_impl; [exact Hcl|].
        intros ci Hci. by apply dot_ones. }
      destruct H1 as [vAx ->], H2 as [vcx H2]. cbn [mbind option_bind].
      rewrite decide_True by done. rewrite H2. by cbn.
  - intros out. unfold optimize. rewrite Hrun.
    destruct (init_loop bd par) as [s|] eqn:Hs; [|done].
    cbn. intros [= <-].
    apply init_loop_Some in Hs as (A1 & vAx & vcx & HA & _ & _ & _ & ->).
    exists A1. eexists. by split_and!.
Qed.

Lemma optimize_zero_cap_witness :
  is_Some (optimize (one_block 0) select_all (with_caps 0 0)) ↔
    ∃ A1, bd_A (one_block 0) !! 0%nat = Some A1
      ∧ Forall (fun Ak => snd (shape Ak) = snd (shape A1))
          (bd_A (one_block 0))
      ∧ (length (bd_c (one_block 0)) <= length (bd_A (one_block 0)))%nat
      ∧ Forall (fun ci => length ci = snd (shape A1)) (bd_c (one_block 0)).
Proof.
  apply (optimize_zero_cap (one_block 0) select_all (with_caps 0 0)). done.
Defined.

(** In the final state of a run that returns both caches agree with
    the iterate that is returned: [_vAx[idx]] is [A[idx] @ xk[idx]] and
    [_vcx[idx]] is [c[idx] . xk[idx]] for every block. *)
Theorem caches_coherent (bd : BlockData) (route : Route) (par : BCDParams)
    (how : terminal) (st : Loop) :
  optimize_run bd route par = Some (how, st) →
  mapM (fun p => mat_vec (fst p) (snd p)) (zip (bd_A bd) (xk st))
  = Some (_vAx st)
  ∧ mapM (fun p => dot (fst p) (snd p)) (zip (bd_c bd) (xk st))
    = Some (_vcx st).
Proof.
  intros Hrun. pose proof (run_final bd route par how st Hrun) as Hpost.
  split; apply mapM_Some.
  - apply (post_coh _ _ _ _ _ Hpost).
  - apply (post_cost _ _ _ _ _ Hpost).
Qed.

Lemma caches_coherent_witness :
  ∃ how st,
    optimize_run (one_block 0) select_all (with_caps 3 2) = Some (how, st)
    ∧ mapM (fun p => mat_vec (fst p) (snd p))
        (zip (bd_A (one_block 0)) (xk st)) = Some (_vAx st).
Proof.
  destruct (optimize_run (one_block 0) select_all (with_caps 3 2))
    as [[how st]|] eqn:Hrun; [|vm_compute in Hrun; discriminate].
  exists how, st. split; [done|].
  apply (caches_coherent (one_block 0) select_all (with_caps 3 2) how st Hrun).
Defined.



(** Every diagnostic line reports a number of inner passes between 1 and
    the inner cap [linmax]. *)
Theorem log_iter_bounds (bd : BlockData) (route : Route) (par : BCDParams)
    (how : terminal) (st : Loop) :
  optimize_run bd route par = Some (how, st) →
  Forall (fun l => (1 <= log_iter l <= Z.to_nat (linmax par))%nat)
    (stdout st).
Proof.
  intros Hrun. pose proof (run_final bd route par how st Hrun) as Hpost.
  apply Forall_lookup. intros j l Hj.
  by destruct (post_log _ _ _ _ _ Hpost _ _ Hj) as (_ & _ & _ & ? & _).
Qed.

Lemma log_iter_bounds_witness :
  ∃ how st,
    optimize_run (one_block 0) select_all (with_caps 3 2) = Some (how, st)
    ∧ Forall (fun l => (1 <= log_iter l <= Z.to_nat 2)%nat) (stdout st).
Proof.
  destruct (optimize_run (one_block 0) select_all (with_caps 3 2))
    as [[how st]|] eqn:Hrun; [|vm_compute in Hrun; discriminate].
  exists how, st. split; [done|].
  apply (log_iter_bounds (one_block 0) select_all (with_caps 3 2) how st Hrun).
Defined.
